(** * Chat frequency analyzer: a shallow embedding of [main.py]

    The Python program reads a chat log line by line, counts segmented
    words, tallies lines made of one repeated punctuation mark, filters and
    ranks the counts.  This file embeds the text pipeline
    ([preprocess_text], [extract_words], [analyze_chat_file],
    [filter_and_sort]), the loaders ([load_config], [load_stopwords],
    [__init__]), the template writers ([create_exclude_list],
    [create_default_config]), [generate_wordcloud] and the loops of
    [save_results] that select what is written, and proves properties of
    them.

    Conventions.  A Python [str] is a list of Unicode code points; a file is
    a list of bytes; a [dict] is an association list in insertion order
    (CPython dictionaries iterate in insertion order); exceptions are the
    [Raise] branch of a result type; the file system is an explicit value
    passed to, and returned by, the functions that touch it. *)

From Stdlib Require Import List ZArith NArith Lia Bool.
From Stdlib.Strings Require Import String Byte.
From Stdlib Require Import Permutation Sorted.
Import ListNotations.

Set Implicit Arguments.

(* ================================================================== *)
(** * Python strings *)

Definition char := N.
Definition str := list char.

Fixpoint str_eqb (a b : str) : bool :=
  match a, b with
  | [], [] => true
  | x :: a', y :: b' => N.eqb x y && str_eqb a' b'
  | _, _ => false
  end.

(** [utf8_decode] is the strict UTF-8 codec of [open(..., encoding='utf-8')]:
    shortest form only, no surrogates, nothing above U+10FFFF.  [None] stands
    for [UnicodeDecodeError]. *)
Definition is_cont (b : N) : bool := (128 <=? b)%N && (b <=? 191)%N.
Definition in_range (lo hi b : N) : bool := (lo <=? b)%N && (b <=? hi)%N.

Fixpoint utf8_decode_N (bs : list N) : option str :=
  match bs with
  | [] => Some []
  | b0 :: t0 =>
      if (b0 <? 128)%N then option_map (cons b0) (utf8_decode_N t0)
      else if in_range 194 223 b0 then
        match t0 with
        | b1 :: t1 =>
            if is_cont b1
            then option_map (cons ((b0 - 192) * 64 + (b1 - 128))%N)
                            (utf8_decode_N t1)
            else None
        | _ => None
        end
      else if in_range 224 239 b0 then
        match t0 with
        | b1 :: b2 :: t2 =>
            if in_range (if (b0 =? 224)%N then 160 else 128)
                        (if (b0 =? 237)%N then 159 else 191) b1
               && is_cont b2
            then option_map
                   (cons ((b0 - 224) * 4096 + (b1 - 128) * 64 + (b2 - 128))%N)
                   (utf8_decode_N t2)
            else None
        | _ => None
        end
      else if in_range 240 244 b0 then
        match t0 with
        | b1 :: b2 :: b3 :: t3 =>
            if in_range (if (b0 =? 240)%N then 144 else 128)
                        (if (b0 =? 244)%N then 143 else 191) b1
               && is_cont b2 && is_cont b3
            then option_map
                   (cons ((b0 - 240) * 262144 + (b1 - 128) * 4096
                          + (b2 - 128) * 64 + (b3 - 128))%N)
                   (utf8_decode_N t3)
            else None
        | _ => None
        end
      else None
  end.

Definition utf8_decode (bs : list byte) : option str :=
  utf8_decode_N (map Byte.to_N bs).

(** A source literal: the code points of a UTF-8 string of this file. *)
Definition u (s : string) : str :=
  match utf8_decode (list_byte_of_string s) with
  | Some t => t
  | None => []
  end.

(** [str.isspace] of one code point, which is also what the regular
    expression class [\s] matches on [str] patterns. *)
Definition is_space (c : char) : bool :=
  in_range 9 13 c || in_range 28 32 c || (c =? 133)%N || (c =? 160)%N
  || (c =? 5760)%N || in_range 8192 8202 c || (c =? 8232)%N
  || (c =? 8233)%N || (c =? 8239)%N || (c =? 8287)%N || (c =? 12288)%N.

Fixpoint lstrip (s : str) : str :=
  match s with
  | c :: t => if is_space c then lstrip t else s
  | [] => []
  end.

Definition rstrip (s : str) : str := rev (lstrip (rev s)).

(** [s.strip()] *)
Definition strip (s : str) : str := rstrip (lstrip s).

(** [s.startswith(p)] *)
Fixpoint startswith (p s : str) : bool :=
  match p, s with
  | [], _ => true
  | x :: p', y :: s' => N.eqb x y && startswith p' s'
  | _ :: _, [] => false
  end.

(** Text-mode reading with universal newlines: [\r\n] and [\r] become
    [\n], and the file iterates as lines that keep their terminator. *)
Fixpoint translate_newlines (s : str) : str :=
  match s with
  | [] => []
  | c :: t =>
      if (c =? 13)%N then
        match t with
        | d :: t' => if (d =? 10)%N then 10%N :: translate_newlines t'
                     else 10%N :: translate_newlines t
        | [] => [10%N]
        end
      else c :: translate_newlines t
  end.

Fixpoint lines_of (s : str) : list str :=
  match s with
  | [] => []
  | c :: t =>
      if (c =? 10)%N then [c] :: lines_of t
      else match lines_of t with
           | [] => [[c]]
           | l :: ls => (c :: l) :: ls
           end
  end.

(* ================================================================== *)
(** * The fragment of [re] the program uses

    Literals, character classes, sequence, greedy [?] and greedy [+] over a
    class, matched by backtracking with a continuation; [re_sub] is
    [re.sub]: leftmost match first, then on from the end of the match. *)

Inductive regex :=
| Lit (c : char)
| Cls (p : char -> bool)
| Seq (r1 r2 : regex)
| Opt (r : regex)
| PlusCls (p : char -> bool).

Fixpoint plus_cls (p : char -> bool) (s : str) (k : str -> option str)
  : option str :=
  match s with
  | [] => None
  | x :: s' =>
      if p x then
        match plus_cls p s' k with
        | Some r => Some r
        | None => k s'
        end
      else None
  end.

Fixpoint rmatch (r : regex) (s : str) (k : str -> option str) : option str :=
  match r with
  | Lit c =>
      match s with
      | x :: s' => if (x =? c)%N then k s' else None
      | [] => None
      end
  | Cls p =>
      match s with
      | x :: s' => if p x then k s' else None
      | [] => None
      end
  | Seq r1 r2 => rmatch r1 s (fun s' => rmatch r2 s' k)
  | Opt r1 =>
      match rmatch r1 s k with
      | Some r => Some r
      | None => k s
      end
  | PlusCls p => plus_cls p s k
  end.

(** The text left after the match of [r] at the head of [s]. *)
Definition re_match (r : regex) (s : str) : option str := rmatch r s Some.

(** [skip] counts the characters of the current match still to drop. *)
Fixpoint sub_go (r : regex) (repl : str) (skip : nat) (s : str) : str :=
  match s with
  | [] =>
      match re_match r [] with
      | Some _ => repl
      | None => []
      end
  | x :: s' =>
      match skip with
      | S n => sub_go r repl n s'
      | O =>
          match re_match r s with
          | None => x :: sub_go r repl 0 s'
          | Some rest =>
              match (List.length s - List.length rest)%nat with
              | O => repl ++ x :: sub_go r repl 0 s'
              | S n => repl ++ sub_go r repl n s'
              end
          end
      end
  end.

(** [re.sub(pattern, repl, text)] *)
Definition re_sub (r : regex) (repl : str) (s : str) : str := sub_go r repl 0 s.

(** A run of literal characters followed by [r]. *)
Fixpoint lits (s : str) (r : regex) : regex :=
  match s with
  | [] => r
  | c :: t => Seq (Lit c) (lits t r)
  end.

Arguments u s%_string.

(* ================================================================== *)
(** * Capabilities outside the repository

    [str.isalnum] beyond ASCII is a table of the Unicode database, and word
    segmentation is [jieba.lcut]; both are taken as interfaces. *)

Class Unicode := { uni_isalnum : char -> bool }.

Class Segmenter := { lcut : str -> list str }.

(** * Text Normalizer: [preprocess_text] *)

Section Normalizer.
Context {UD : Unicode}.

(** [\w] on a [str] pattern: alphanumeric or underscore. *)
Definition is_word (c : char) : bool :=
  if (c <? 128)%N
  then in_range 48 57 c || in_range 65 90 c || in_range 97 122 c
       || (c =? 95)%N
  else uni_isalnum c.

Definition non_space (c : char) : bool := negb (is_space c).

(** The class [[\w一-鿿\s\.\,\!\?，。！？]]. *)
Definition kept (c : char) : bool :=
  is_word c || in_range 19968 40959 c || is_space c
  || existsb (N.eqb c) (u ".,!?，。！？").

(** [https?://\S+] *)
Definition url_re : regex :=
  lits (u "http") (Seq (Opt (Lit 115%N)) (lits (u "://") (PlusCls non_space))).

(** [\S+@\S+] *)
Definition email_re : regex :=
  Seq (PlusCls non_space) (Seq (Lit 64%N) (PlusCls non_space)).

(** [[^\w一-鿿\s\.\,\!\?，。！？]] *)
Definition special_re : regex := Cls (fun c => negb (kept c)).

(** [\s+] *)
Definition spaces_re : regex := PlusCls is_space.

Definition preprocess_text (text : str) : str :=
  let text := re_sub url_re [] text in
  let text := re_sub email_re [] text in
  let text := re_sub special_re [] text in
  let text := re_sub spaces_re (u " ") text in
  strip text.

End Normalizer.

(** * Tokenizer Adapter: [extract_words] *)

Definition extract_words {SG : Segmenter} (text : str) : list str :=
  let words := lcut text in
  map strip (filter (fun word => negb (str_eqb (strip word) [])) words).

(* ================================================================== *)
(** * Dictionaries, exceptions, files *)

Definition dict (V : Type) := list (str * V).

Fixpoint dict_get {V} (k : str) (d : dict V) : option V :=
  match d with
  | [] => None
  | (k', v) :: t => if str_eqb k k' then Some v else dict_get k t
  end.

(** [d[k] = v]: an existing key keeps its place, a new one goes last. *)
Fixpoint dict_set {V} (k : str) (v : V) (d : dict V) : dict V :=
  match d with
  | [] => [(k, v)]
  | (k', v') :: t =>
      if str_eqb k k' then (k', v) :: t else (k', v') :: dict_set k v t
  end.

Definition keys {V} (d : dict V) : list str := map fst d.

(** [k in s] for a set of strings. *)
Definition mem (k : str) (s : list str) : bool := existsb (str_eqb k) s.

Inductive exn :=
| FileNotFoundError
| PermissionError
| UnicodeDecodeError
| KeyError
| NoSectionError
| NoOptionError
| ValueError
| ParsingError
| InterpolationError
| NotADirectoryError
| IsADirectoryError
| OSError.

Inductive result (A : Type) :=
| Return (a : A)
| Raise (e : exn).

Arguments Return {A} a.
Arguments Raise {A} e.

Definition bind {A B} (m : result A) (f : A -> result B) : result B :=
  match m with
  | Return a => f a
  | Raise e => Raise e
  end.

Notation "x <- m ;; f" := (bind m (fun x => f))
  (at level 61, m at next level, right associativity).

(** A path names nothing ([os.path.exists] is false), something that
    [open] refuses (no permission, a directory), or a file with its bytes.
    [create_error] is the error, if any, of creating a file at a path that
    names nothing.  [open_error] is the exception that [open] for reading
    raises at a path where there is no file to open: [FileNotFoundError]
    for a file that is simply not there, and another one for, say, a path
    below a regular file ([NotADirectoryError]), a name with a NUL
    character ([ValueError]), a name that is too long ([OSError]), a
    directory ([IsADirectoryError]) or a file without permission
    ([PermissionError]).  At a path that exists it is an [OSError] of some
    kind, which is what [config.read] catches. *)
Inductive node :=
| Absent
| Unopenable
| File (content : list byte).

Record filesystem := {
  node_at : str -> node;
  create_error : str -> option exn;
  open_error : str -> exn
}.

(** [os.path.exists] *)
Definition path_exists (fs : filesystem) (p : str) : bool :=
  match node_at fs p with
  | Absent => false
  | _ => true
  end.

(** [open(p, 'r', encoding='utf-8')] and reading all of it. *)
Definition open_read (fs : filesystem) (p : str) : result str :=
  match node_at fs p with
  | Absent => Raise (open_error fs p)
  | Unopenable => Raise (open_error fs p)
  | File bs =>
      match utf8_decode bs with
      | Some text => Return (translate_newlines text)
      | None => Raise UnicodeDecodeError
      end
  end.

(** [open(p, 'w', encoding='utf-8')], writing [bs], closing. *)
Definition write_file (fs : filesystem) (p : str) (bs : list byte)
  : result filesystem :=
  let stored :=
    {| node_at := fun q => if str_eqb q p then File bs else node_at fs q;
       create_error := create_error fs;
       open_error := open_error fs |} in
  match node_at fs p with
  | Unopenable => Raise PermissionError
  | File _ => Return stored
  | Absent =>
      match create_error fs p with
      | Some e => Raise e
      | None => Return stored
      end
  end.

(* ================================================================== *)
(** * Config Loader *)

(** A [ConfigParser]: sections of options, all values strings. *)
Definition configparser := dict (dict str).

(** The INI syntax belongs to the [configparser] library.  [ini_parse] gives
    what one [config.read] leaves in a fresh parser for the bytes of a file
    and the exception it raises, if any (a decoding or a parsing error);
    [ini_render] is [config.write]. *)
Class IniFormat := {
  ini_parse : list byte -> configparser * option exn;
  ini_render : configparser -> list byte
}.

Local Open Scope string_scope.

Definition defaults : configparser :=
  [ (u "settings",
     [ (u "min_frequency", u "20");
       (u "enable_punctuation_stats", u "true");
       (u "wordcloud_max_words", u "200");
       (u "wordcloud_width", u "1200");
       (u "wordcloud_height", u "800");
       (u "wordcloud_background_color", u "white");
       (u "font_path", u "C:/Windows/Fonts/simhei.ttf");
       (u "show_wordcloud", u "true");
       (u "save_wordcloud", u "true") ]) ].

(** The built-in exclusion set of [load_stopwords], as the source lists it
    (a set literal: repeated entries are harmless). *)
Definition default_stopwords : list str :=
  (map u
    [ "的"; "了"; "和"; "是"; "就"; "都"; "而"; "及"; "与"; "或";
      "在"; "中"; "了"; "我"; "你"; "他"; "她"; "它"; "们";
      "这"; "那"; "哪"; "谁"; "什么"; "怎么"; "为什么";
      "啊"; "哦"; "嗯"; "哈"; "啦"; "呀"; "吧"; "吗"; "呢";
      "不"; "没"; "有"; "是"; "也"; "都"; "又"; "再";
      "上"; "下"; "左"; "右"; "前"; "后"; "里"; "外";
      "一"; "二"; "三"; "四"; "五"; "六"; "七"; "八"; "九"; "十";
      "很"; "最"; "太"; "更"; "非常"; "特别";
      "a"; "b"; "c"; "d"; "e"; "f"; "g"; "h"; "i"; "j"; "k"; "l"; "m";
      "n"; "o"; "p"; "q"; "r"; "s"; "t"; "u"; "v"; "w"; "x"; "y"; "z";
      "A"; "B"; "C"; "D"; "E"; "F"; "G"; "H"; "I"; "J"; "K"; "L"; "M";
      "N"; "O"; "P"; "Q"; "R"; "S"; "T"; "U"; "V"; "W"; "X"; "Y"; "Z";
      "0"; "1"; "2"; "3"; "4"; "5"; "6"; "7"; "8"; "9";
      "."; ","; "。"; "，"; "!"; "！"; "?"; "？"; ":"; "："; ";"; "；";
      "("; ")"; "（"; "）"; "["; "]"; "{"; "}"; "<"; ">";
      "'"; "「"; "」"; "『"; "』"; "、";
      " ";
      "这个"; "那个"; "一个"; "一些"; "一种"; "一样";
      "时候"; "时间"; "开始"; "然后"; "最后";
      "可以"; "可能"; "可是"; "但是"; "虽然"; "如果";
      "因为"; "所以"; "然后"; "而且"; "那么";
      "这样"; "那样"; "怎么"; "什么"; "为什么";
      "有点"; "有些"; "有点"; "有些";
      "自己"; "别人"; "大家"; "有人";
      "知道"; "觉得"; "认为"; "以为";
      "看到"; "听见"; "听到"; "想到";
      "今天"; "明天"; "昨天"; "现在"; "以前"; "以后";
      "还有"; "还有"; "还是"; "还有";
      "这里"; "那里"; "哪里"; "这边"; "那边";
      "的话"; "的说"; "的是"; "了了" ]
  ++ (* the double quote, tab, line feed, carriage return *)
     [ [34%N]; [9%N]; [10%N]; [13%N] ])%list.

Definition stopwords_file : str := u "stopwords.txt".

(** The two punctuation categories of [analyze_chat_file]. *)
Definition name_period : str := u "句号".
Definition name_question : str := u "问号".
Definition ch_period : char := 12290%N.
Definition ch_question : char := 65311%N.

Definition special_punctuations : dict char :=
  [ (name_period, ch_period); (name_question, ch_question) ].

Definition pseudo_prefix : str := u "[整行都是".

(** [f"[整行都是{name}]"] *)
Definition display_name (name : str) : str :=
  (pseudo_prefix ++ name ++ u "]")%list.

Local Close Scope string_scope.

(** [config.read_dict(d)]: every section of [d] is added if it is not there
    and each of its options set. *)
Definition read_dict (d : configparser) (config : configparser)
  : configparser :=
  fold_left
    (fun cfg '(section, options) =>
       let old := match dict_get section cfg with
                  | Some o => o
                  | None => []
                  end in
       dict_set section
         (fold_left (fun o '(key, value) => dict_set key value o) options old)
         cfg)
    d config.

(** [config.read(config_file, encoding='utf-8')] on a fresh parser: a file
    that cannot be opened is skipped in silence (the library catches
    [OSError]); the result is the parser's content and the exception raised. *)
Definition config_read {IF : IniFormat} (fs : filesystem) (config_file : str)
  : configparser * option exn :=
  match node_at fs config_file with
  | File bs => ini_parse bs
  | _ => ([], None)
  end.

Definition load_config {IF : IniFormat} (fs : filesystem) (config_file : str)
  : configparser * filesystem :=
  if path_exists fs config_file then
    match config_read fs config_file with
    | (config, None) => (config, fs)
    | (config, Some _) => (read_dict defaults config, fs)
    end
  else
    let config := read_dict defaults [] in
    match write_file fs config_file (ini_render config) with
    | Return fs' => (config, fs')
    | Raise _ => (config, fs)
    end.

(** The sections of a parser are looked up under their names; the options
    of [[DEFAULT]] (the parser's [defaults()]) are kept under the name
    [DEFAULT]. *)
Definition default_section : str := u "DEFAULT"%string.

(** [s.lower()] as far as the ASCII letters go.  No other character has a
    letter of the boolean words of [getboolean] in its lower case, so the
    test of [getboolean] is decided as [str.lower] decides it. *)
Definition lower (s : str) : str :=
  map (fun c => if in_range 65 90 c then (c + 32)%N else c) s.

(** The pieces of a value for [BasicInterpolation]: a character, a
    reference to another option, or the place where the syntax breaks. *)
Inductive piece :=
| Text (c : char)
| Var (name : str)
| Bad.

Inductive scan_state :=
| Plain
| Percent
| Name (name : str)
| Close (name : str).

(** The scan of [_interpolate_some]: two percent signs are one, a percent
    sign and an opening parenthesis start a name that runs to the next
    closing parenthesis, is not empty and is followed by the letter s (the
    library's pattern [_KEYCRE]); any other percent sign is an error. *)
Fixpoint percent_pieces (st : scan_state) (s : str) : list piece :=
  match s with
  | [] =>
      match st with
      | Plain => []
      | _ => [Bad]
      end
  | c :: t =>
      match st with
      | Plain =>
          if (c =? 37)%N then percent_pieces Percent t
          else Text c :: percent_pieces Plain t
      | Percent =>
          if (c =? 37)%N then Text c :: percent_pieces Plain t
          else if (c =? 40)%N then percent_pieces (Name []) t
          else [Bad]
      | Name name =>
          if (c =? 41)%N then
            match name with
            | [] => [Bad]
            | _ :: _ => percent_pieces (Close name) t
            end
          else percent_pieces (Name (name ++ [c])) t
      | Close name =>
          if (c =? 115)%N then Var name :: percent_pieces Plain t
          else [Bad]
      end
  end.

(** [BasicInterpolation.before_get]: [depth] is the number of nested
    expansions still allowed ([MAX_INTERPOLATION_DEPTH] is 10); the three
    interpolation errors of the library are one exception here.  The name
    of a reference goes through [optionxform], which is [str.lower]: its
    ASCII part is modelled. *)
Fixpoint interpolate (depth : nat) (lookup : str -> option str) (value : str)
  : result str :=
  match depth with
  | O => Raise InterpolationError
  | S depth' =>
      (fix expand (pieces : list piece) : result str :=
         match pieces with
         | [] => Return []
         | Text c :: rest =>
             tail <- expand rest ;; Return (c :: tail)
         | Var name :: rest =>
             match lookup (lower name) with
             | None => Raise InterpolationError
             | Some v =>
                 head <- (if existsb (N.eqb 37) v
                          then interpolate depth' lookup v
                          else Return v) ;;
                 tail <- expand rest ;;
                 Return (head ++ tail)
             end
         | Bad :: _ => Raise InterpolationError
         end) (percent_pieces Plain value)
  end.

(** [config.defaults()]: the options that every section inherits. *)
Definition parser_defaults (config : configparser) : dict str :=
  match dict_get default_section config with
  | Some inherited => inherited
  | None => []
  end.

(** [config.get(section, option)]: the option, through [optionxform], is
    looked up in the section, then in the defaults, and its value is
    interpolated.  A section that is not there is an error even when the
    defaults have the option. *)
Definition config_get (config : configparser) (section option : str)
  : result str :=
  let sectiondict :=
    if str_eqb section default_section then Some []
    else dict_get section config in
  match sectiondict with
  | None => Raise NoSectionError
  | Some options =>
      let lookup name :=
        match dict_get name options with
        | Some v => Some v
        | None => dict_get name (parser_defaults config)
        end in
      match lookup (lower option) with
      | None => Raise NoOptionError
      | Some value => interpolate 10 lookup value
      end
  end.

(** The decimal digits of the Unicode database (version 14.0.0, that of
    CPython 3.11): the first code point of each run of ten, 0 to 9. *)
Definition decimal_runs : list N :=
  [ 48; 1632; 1776; 1984; 2406; 2534; 2662; 2790; 2918; 3046; 3174; 3302;
    3430; 3558; 3664; 3792; 3872; 4160; 4240; 6112; 6160; 6470; 6608; 6784;
    6800; 6992; 7088; 7232; 7248; 42528; 43216; 43264; 43472; 43504; 43600;
    44016; 65296; 66720; 68912; 69734; 69872; 69942; 70096; 70384; 70736;
    70864; 71248; 71360; 71472; 71904; 72016; 72784; 73040; 73120; 92768;
    92864; 93008; 120782; 120792; 120802; 120812; 120822; 123200; 123632;
    125264; 130032 ]%N.

Definition decimal_value (c : char) : option N :=
  match find (fun first => in_range first (first + 9) c) decimal_runs with
  | Some first => Some (c - first)%N
  | None => None
  end.

(** What [int] does to a string first: a character below 127 stays, other
    white space becomes a blank, another decimal digit its ASCII digit,
    anything else a question mark. *)
Definition ascii_digit (c : char) : char :=
  if (c <? 127)%N then c
  else if is_space c then 32%N
  else match decimal_value c with
       | Some d => (48 + d)%N
       | None => 63%N
       end.

(** White space for the parser of [int]: the ASCII one. *)
Definition is_ascii_space (c : char) : bool :=
  in_range 9 13 c || (c =? 32)%N.

Fixpoint skip_spaces (s : str) : str :=
  match s with
  | c :: t => if is_ascii_space c then skip_spaces t else s
  | [] => []
  end.

(** The digits of a literal: single underscores may stand between digits.
    The result is the value, the number of digits and the text left. *)
Fixpoint digits (acc : Z) (count : nat) (underscore : bool) (s : str)
  : option (Z * nat * str) :=
  match s with
  | [] => if underscore then None else Some (acc, count, [])
  | c :: t =>
      if in_range 48 57 c
      then digits (acc * 10 + Z.of_N (c - 48)) (S count) false t
      else if (c =? 95)%N
      then if underscore then None else digits acc count true t
      else if underscore then None else Some (acc, count, s)
  end.

(** [sys.get_int_max_str_digits()] as it is unless the user changes it. *)
Definition int_max_str_digits : nat := 4300.

(** [int(s)] in base 10 (CPython 3.11): white space, a sign, digits with
    single underscores between them, white space; a literal of more than
    [int_max_str_digits] digits is refused.  Anything else is
    [ValueError]. *)
Definition py_int (s : str) : result Z :=
  let text := skip_spaces (map ascii_digit s) in
  let '(negative, body) :=
    match text with
    | c :: t =>
        if (c =? 45)%N then (true, t)
        else if (c =? 43)%N then (false, t)
        else (false, text)
    | [] => (false, [])
    end in
  let parsed :=
    match body with
    | c :: _ =>
        if in_range 48 57 c then digits 0 0 false body else None
    | [] => None
    end in
  match parsed with
  | Some (z, count, rest) =>
      match skip_spaces rest with
      | [] =>
          if (count <=? int_max_str_digits)%nat
          then Return (if negative then (- z)%Z else z)
          else Raise ValueError
      | _ :: _ => Raise ValueError
      end
  | None => Raise ValueError
  end.

Definition config_getint (config : configparser) (section option : str)
  : result Z :=
  v <- config_get config section option ;; py_int v.

Definition config_getboolean (config : configparser) (section option : str)
  : result bool :=
  v <- config_get config section option ;;
  let v := lower v in
  if mem v (map u ["1"; "yes"; "true"; "on"]%string) then Return true
  else if mem v (map u ["0"; "no"; "false"; "off"]%string) then Return false
  else Raise ValueError.

(** * Stopword Set Builder: [load_stopwords] *)

Definition load_stopwords (fs : filesystem) : list str :=
  if path_exists fs stopwords_file then
    match open_read fs stopwords_file with
    | Return text =>
        let words :=
          map strip
            (filter (fun line => negb (str_eqb (strip line) [])
                                 && negb (startswith [35%N] line))
                    (lines_of text)) in
        default_stopwords ++ words
    | Raise _ => default_stopwords
    end
  else default_stopwords.

(** * The analyzer object *)

Record analyzer := {
  config : configparser;
  min_frequency : Z;
  enable_punctuation_stats : bool;
  stopwords : list str
}.

(** [ChatFrequencyAnalyzer.__init__] *)
Definition init {IF : IniFormat} (fs : filesystem) (config_file : str)
  : result analyzer * filesystem :=
  let '(cfg, fs') := load_config fs config_file in
  (min_freq <- config_getint cfg (u "settings") (u "min_frequency") ;;
   enable <- config_getboolean cfg (u "settings")
                               (u "enable_punctuation_stats") ;;
   Return {| config := cfg;
             min_frequency := min_freq;
             enable_punctuation_stats := enable;
             stopwords := load_stopwords fs' |},
   fs').

(* ================================================================== *)
(** * Frequency Aggregator and Punctuation-Line Detector:
      [analyze_chat_file] *)

(** [word_freq[word] += 1] on a [Counter]: a missing key reads as 0. *)
Definition counter_incr (word : str) (word_freq : dict Z) : dict Z :=
  let old := match dict_get word word_freq with
             | Some v => v
             | None => 0%Z
             end in
  dict_set word (old + 1)%Z word_freq.

(** [special_counts[name] += 1] on a plain [dict]. *)
Definition tally_incr (name : str) (special_counts : dict Z)
  : result (dict Z) :=
  match dict_get name special_counts with
  | Some v => Return (dict_set name (v + 1)%Z special_counts)
  | None => Raise KeyError
  end.

(** The local variables of the loop over the lines. *)
Record locals := {
  word_freq : dict Z;
  special_counts : dict Z;
  total_lines : nat
}.

Section Pipeline.
Context {UD : Unicode} {SG : Segmenter}.

(** The loop body from [preprocess_text] on: the line is normalized,
    segmented and counted. *)
Definition count_words (st : locals) (line_num : nat) (line : str) : locals :=
  let processed_line := preprocess_text line in
  match processed_line with
  | [] => st
  | _ :: _ =>
      let words := extract_words processed_line in
      {| word_freq :=
           fold_left (fun wf word => counter_incr word wf) words
                     (word_freq st);
         special_counts := special_counts st;
         total_lines := line_num |}
  end.

(** A line taken by the detector: the tally moves, the loop continues. *)
Definition consume (name : str) (st : locals) : result locals :=
  sc <- tally_incr name (special_counts st) ;;
  Return {| word_freq := word_freq st;
            special_counts := sc;
            total_lines := total_lines st |}.

(** One iteration of [for line_num, line in enumerate(f, 1)]. *)
Definition process_line (self : analyzer) (st : locals) (line_num : nat)
  (line : str) : result locals :=
  let stripped_line := strip line in
  if enable_punctuation_stats self then
    if str_eqb stripped_line [ch_period] then consume name_period st
    else if str_eqb stripped_line [ch_question] then consume name_question st
    else if forallb (N.eqb ch_period) stripped_line
            && (0 <? List.length stripped_line)%nat
    then consume name_period st
    else if forallb (N.eqb ch_question) stripped_line
            && (0 <? List.length stripped_line)%nat
    then consume name_question st
    else Return (count_words st line_num line)
  else Return (count_words st line_num line).

Fixpoint for_lines (self : analyzer) (line_num : nat) (lines : list str)
  (st : locals) : result locals :=
  match lines with
  | [] => Return st
  | line :: rest =>
      st' <- process_line self st line_num line ;;
      for_lines self (S line_num) rest st'
  end.

Definition initial_locals : locals :=
  {| word_freq := [];
     special_counts := map (fun p => (fst p, 0%Z)) special_punctuations;
     total_lines := 0 |}.

(** The file is decoded as a whole before the loop runs; Python decodes as
    it reads, which gives the same value, since a decoding error discards
    what the loop has counted. *)
Definition analyze_chat_file (self : analyzer) (fs : filesystem)
  (file_path : str) : result (dict Z * dict Z) :=
  let body :=
    text <- open_read fs file_path ;;
    st <- for_lines self 1 (lines_of text) initial_locals ;;
    Return (word_freq st, special_counts st) in
  match body with
  | Raise FileNotFoundError => Return ([], [])
  | Raise UnicodeDecodeError => Return ([], [])
  | other => other
  end.

End Pipeline.

(* ================================================================== *)
(** * Filter & Rank Engine: [filter_and_sort] *)

(** [sorted(l, key=key, reverse=True)]: the stable sort, by insertion. *)
Fixpoint insert_desc {A} (key : A -> Z) (x : A) (l : list A) : list A :=
  match l with
  | [] => [x]
  | y :: t =>
      if (key y <=? key x)%Z then x :: l else y :: insert_desc key x t
  end.

Definition sorted_desc {A} (key : A -> Z) (l : list A) : list A :=
  fold_right (insert_desc key) [] l.

(** The dict comprehension over [word_freq.items()]. *)
Definition filter_words (self : analyzer) (word_freq : dict Z) : dict Z :=
  fold_left
    (fun acc '(word, freq) =>
       if negb (mem word (stopwords self))
          && (min_frequency self <=? freq)%Z
       then dict_set word freq acc
       else acc)
    word_freq [].

(** The loop over [special_counts.items()] that adds the pseudo-labels. *)
Definition add_special (self : analyzer) (special_counts : dict Z)
  (filtered_freq : dict Z) : dict Z :=
  fold_left
    (fun acc '(name, count) =>
       if (min_frequency self <=? count)%Z
       then dict_set (display_name name) count acc
       else acc)
    special_counts filtered_freq.

(** [filtered_freq] as it stands before the sort. *)
Definition candidates (self : analyzer) (word_freq special_counts : dict Z)
  : dict Z :=
  let filtered_freq := filter_words self word_freq in
  if enable_punctuation_stats self
  then add_special self special_counts filtered_freq
  else filtered_freq.

Definition filter_and_sort (self : analyzer)
  (word_freq special_counts : dict Z) : list (str * Z) :=
  sorted_desc snd (candidates self word_freq special_counts).

(** The test of [save_results] and [generate_wordcloud] for an entry that
    is written: [not word.startswith('[整行都是')]. *)
Definition is_reported (word : str) : bool :=
  negb (startswith pseudo_prefix word).

(** The vocabulary list of [save_results]. *)
Definition vocabulary (sorted_freq : list (str * Z)) : list str :=
  map fst (filter (fun e => is_reported (fst e)) sorted_freq).

(* ================================================================== *)
(** * Stand-ins and sample data

    Concrete instances of the outside capabilities, and small inputs, on
    which the model runs: a table that knows the CJK ideographs only, a
    segmenter that cuts at white space, an INI reader that accepts the
    empty file only. *)

Definition cjk_table : Unicode :=
  {| uni_isalnum := fun c => in_range 19968 40959 c |}.

Fixpoint split_blank (s : str) : list str :=
  match s with
  | [] => []
  | c :: t =>
      if is_space c then [c] :: split_blank t
      else match split_blank t with
           | (d :: w) :: ws =>
               if is_space d then [c] :: (d :: w) :: ws
               else (c :: d :: w) :: ws
           | other => [c] :: other
           end
  end.

Definition blank_segmenter : Segmenter := {| lcut := split_blank |}.

Definition strict_ini : IniFormat :=
  {| ini_parse := fun bs => match bs with
                            | [] => ([], None)
                            | _ :: _ => ([], Some ParsingError)
                            end;
     ini_render := fun _ => [] |}.

Local Open Scope string_scope.




Definition sample_analyzer : analyzer :=
  {| config := defaults;
     min_frequency := 20;
     enable_punctuation_stats := true;
     stopwords := default_stopwords |}.

(** The table of Scenario C. *)
Definition sample_table : dict Z := [ (u "你好", 25%Z); (u "再见", 19%Z) ].

(** An analyzer whose exclusion set lists a pseudo-label. *)
Definition wary_analyzer : analyzer :=
  {| config := defaults;
     min_frequency := 20;
     enable_punctuation_stats := true;
     stopwords := display_name name_period :: default_stopwords |}.

Definition busy_table : dict Z :=
  [ (u "的", 1000%Z); (u "你好", 25%Z); (u "哈哈", 30%Z); (u "再见", 25%Z) ].

Definition busy_tally : dict Z := [ (name_period, 30%Z); (name_question, 3%Z) ].

Definition chat_path : str := u "chat.txt".

Definition config_path : str := u "config.ini".

(** A directory that holds one chat log and nothing else. *)
Definition one_file (bs : list byte) : filesystem :=
  {| node_at := fun p => if str_eqb p chat_path then File bs else Absent;
     create_error := fun _ => None;
     open_error := fun _ => FileNotFoundError |}.

(** A chat log of three lines. *)
Definition sample_chat : list byte :=
  list_byte_of_string "你好 你好 re" ++ [x0a]
  ++ list_byte_of_string "。。。" ++ [x0d; x0a]
  ++ list_byte_of_string "你好 [整行都是句号]".

(** A directory in which the configuration file is there and cannot be
    opened. *)
Definition locked_config : filesystem :=
  {| node_at := fun p => if str_eqb p config_path then Unopenable else Absent;
     create_error := fun _ => None;
     open_error := fun p => if str_eqb p config_path then PermissionError
                            else FileNotFoundError |}.



Local Close Scope string_scope.

(** The same analyzer with the punctuation statistics switched off. *)
Definition quiet_analyzer : analyzer :=
  {| config := defaults;
     min_frequency := 20;
     enable_punctuation_stats := false;
     stopwords := default_stopwords |}.

(** The locals after a line that the detector took for category [name],
    whose tally stood at [v]. *)
Definition tallied (name : str) (v : Z) (st : locals) : locals :=
  {| word_freq := word_freq st;
     special_counts := dict_set name (v + 1)%Z (special_counts st);
     total_lines := total_lines st |}.

(* ================================================================== *)
(** * Predicates of the statements *)

(** A string that does not begin with white space. *)
Definition tight (s : str) : Prop :=
  match s with
  | [] => True
  | c :: _ => is_space c = false
  end.

(** The words of a pattern. *)
Inductive matches : regex -> str -> Prop :=
| M_Lit c : matches (Lit c) [c]
| M_Cls p c : p c = true -> matches (Cls p) [c]
| M_Seq r1 r2 w1 w2 :
    matches r1 w1 -> matches r2 w2 -> matches (Seq r1 r2) (w1 ++ w2)
| M_OptNone r : matches (Opt r) []
| M_OptSome r w : matches r w -> matches (Opt r) w
| M_Plus p c w :
    p c = true -> Forall (fun x => p x = true) w -> matches (PlusCls p) (c :: w).

(** Every white-space character is one U+0020 between two others. *)
Fixpoint single_spaced (s : str) : Prop :=
  match s with
  | [] => True
  | c :: t => (is_space c = true -> c = 32%N /\ tight t) /\ single_spaced t
  end.

(** The order of the ranked result: counts go down. *)
Definition descending {A} (key : A -> Z) (a b : A) : Prop :=
  (key b <= key a)%Z.

(** The test of the dict comprehension. *)
Definition keeps (self : analyzer) (e : str * Z) : bool :=
  negb (mem (fst e) (stopwords self)) && (min_frequency self <=? snd e)%Z.

(** A label that the loop over the tally puts into the result. *)
Definition synthesized (self : analyzer) (special_counts : dict Z)
  (label : str) : Prop :=
  enable_punctuation_stats self = true
  /\ exists name count,
       In (name, count) special_counts
       /\ (min_frequency self <= count)%Z
       /\ label = display_name name.

(** Both categories have an entry in the tally. *)
Definition ready (sc : dict Z) : Prop :=
  (exists a, dict_get name_period sc = Some a)
  /\ (exists b, dict_get name_question sc = Some b).

(** Every count is at least one. *)
Definition counted (wf : dict Z) : Prop :=
  forall w c, In (w, c) wf -> (1 <= c)%Z.

(** No key holds a left square bracket. *)
Definition bracket_free (wf : dict Z) : Prop :=
  forall w c, In (w, c) wf -> ~ In 91%N w.

(** The pseudo-entries of a tally, in its order. *)
Definition pseudo_entries (self : analyzer) (sc : dict Z) : dict Z :=
  map (fun e => (display_name (fst e), snd e))
      (filter (fun e => (min_frequency self <=? snd e)%Z) sc).

(** The options of the one section of [defaults]. *)
Definition default_options : dict str :=
  match defaults with
  | (_, options) :: _ => options
  | [] => []
  end.

(* ================================================================== *)
(** * What the loop of [analyze_chat_file] computes, said directly

    These definitions are not translations of the source: they say what
    the loop is proved to compute. *)

(** The category, if any, for which the detector takes a line. *)
Definition classify (self : analyzer) (line : str) : option str :=
  let s := strip line in
  if enable_punctuation_stats self then
    if negb (str_eqb s []) && forallb (N.eqb ch_period) s
    then Some name_period
    else if negb (str_eqb s []) && forallb (N.eqb ch_question) s
    then Some name_question
    else None
  else None.

(** The number of lines that the detector takes for category [name]. *)
Definition lines_in (self : analyzer) (name : str) (lines : list str) : nat :=
  List.length
    (filter (fun line => match classify self line with
                         | Some n => str_eqb n name
                         | None => false
                         end) lines).

(** The words that one line adds to the count, and those of a file. *)
Definition line_tokens {UD : Unicode} {SG : Segmenter} (self : analyzer)
  (line : str) : list str :=
  match classify self line with
  | Some _ => []
  | None =>
      match preprocess_text line with
      | [] => []
      | c :: t => extract_words (c :: t)
      end
  end.

Definition file_tokens {UD : Unicode} {SG : Segmenter} (self : analyzer)
  (lines : list str) : list str :=
  flat_map (line_tokens self) lines.

(** How often [w] stands in [l]. *)
Definition occurrences (w : str) (l : list str) : nat :=
  List.length (filter (str_eqb w) l).

(** The distinct words of [l], each at the place of its first occurrence. *)
Fixpoint first_seen (l : list str) : list str :=
  match l with
  | [] => []
  | w :: t => w :: filter (fun x => negb (str_eqb w x)) (first_seen t)
  end.

(** The table of a sequence of words: every distinct word with the number
    of its occurrences, in the order of first occurrence. *)
Definition table_of (tokens : list str) : dict Z :=
  map (fun w => (w, Z.of_nat (occurrences w tokens))) (first_seen tokens).

(** A missing key of a [Counter] reads as 0. *)
Definition count_of (w : str) (d : dict Z) : Z :=
  match dict_get w d with
  | Some v => v
  | None => 0%Z
  end.

(* ================================================================== *)
(** * Report Writer and Word-Cloud Renderer: what they select

    The loops of [save_results] and [generate_wordcloud] that decide which
    entries of the ranked result are written or drawn. *)

(** The dictionary [word_freq] that [generate_wordcloud] builds and hands
    to the renderer. *)
Definition cloud_frequencies (sorted_freq : list (str * Z)) : dict Z :=
  fold_left
    (fun word_freq '(word, freq) =>
       if negb (startswith pseudo_prefix word)
       then dict_set word freq word_freq
       else word_freq)
    sorted_freq [].

(** A dictionary with integer keys, for [length_dist]. *)
Fixpoint hist_get (k : nat) (d : list (nat * Z)) : option Z :=
  match d with
  | [] => None
  | (k', v) :: t => if Nat.eqb k k' then Some v else hist_get k t
  end.

Fixpoint hist_set (k : nat) (v : Z) (d : list (nat * Z)) : list (nat * Z) :=
  match d with
  | [] => [(k, v)]
  | (k', v') :: t =>
      if Nat.eqb k k' then (k', v) :: t else (k', v') :: hist_set k v t
  end.

(** [length_dist] of [save_results]:
    [length_dist[length] = length_dist.get(length, 0) + 1] for every entry
    that is not a pseudo-label. *)
Definition length_dist (sorted_freq : list (str * Z)) : list (nat * Z) :=
  fold_left
    (fun dist '(word, freq) =>
       if negb (startswith pseudo_prefix word) then
         let length := List.length word in
         hist_set length
                  (match hist_get length dist with
                   | Some v => v
                   | None => 0%Z
                   end + 1)%Z
                  dist
       else dist)
    sorted_freq [].

(** [sorted(keys)] on integers: ascending. *)
Fixpoint insert_asc (x : nat) (l : list nat) : list nat :=
  match l with
  | [] => [x]
  | y :: t => if (x <=? y)%nat then x :: l else y :: insert_asc x t
  end.

Definition sorted_asc (l : list nat) : list nat :=
  fold_right insert_asc [] l.

(** The rows of the length histogram in the summary, in the order they
    are written: [for length in sorted(length_dist.keys())] with
    [length_dist[length]] (the key is there: it comes from the keys). *)
Definition length_rows (sorted_freq : list (str * Z)) : list (nat * Z) :=
  let dist := length_dist sorted_freq in
  map (fun length => (length, match hist_get length dist with
                              | Some v => v
                              | None => 0%Z
                              end))
      (sorted_asc (map fst dist)).

(** The number of entries of a ranked result that are written to the
    vocabulary list and whose label has [k] characters. *)
Definition words_of_length (k : nat) (sorted_freq : list (str * Z)) : nat :=
  List.length
    (filter (fun e => is_reported (fst e)
                      && Nat.eqb (List.length (fst e)) k) sorted_freq).

(** The sum of a list of integers. *)
Definition total (l : list Z) : Z := fold_right Z.add 0%Z l.

(* ================================================================== *)
(** * The template writers: [create_exclude_list], [create_default_config]

    Text is written as on a POSIX system: a line feed stays a line feed. *)

Local Open Scope string_scope.

(** The bytes of [template] in [create_exclude_list]. *)
Definition exclude_template : list byte :=
  list_byte_of_string "# 排除词列表
# 每行一个词，支持中文、英文、数字等
# 以#开头的行会被忽略

# 常用中文单字
的
了
在
是
我
你
他
们
这
那

# 英文字母
a
b
c
d
e

# 阿拉伯数字
0
1
2
3

# 标点符号
.
,
!

# 添加您想要排除的其他词...
".

Local Close Scope string_scope.

(** [create_exclude_list]: an existing file is left alone; an error of
    [open] is not caught. *)
Definition create_exclude_list (fs : filesystem) : result str * filesystem :=
  let exclude_file := u "stopwords.txt" in
  if path_exists fs exclude_file then (Return exclude_file, fs)
  else
    match write_file fs exclude_file exclude_template with
    | Return fs' => (Return exclude_file, fs')
    | Raise e => (Raise e, fs)
    end.

(** [create_default_config]: [config['settings'] = {...}] on a fresh parser
    is [read_dict] of that one section. *)
Definition create_default_config {IF : IniFormat} (fs : filesystem)
  : result str * filesystem :=
  let config_file := u "config.ini" in
  if path_exists fs config_file then (Return config_file, fs)
  else
    let config := read_dict defaults [] in
    match write_file fs config_file (ini_render config) with
    | Return fs' => (Return config_file, fs')
    | Raise e => (Raise e, fs)
    end.

(** The rows of the punctuation block in the detailed report of
    [save_results], each with the label [f"[整行都是{name}]"] it is
    written under; the block is there when the statistics are on and some
    tally reaches the threshold. *)
Definition punctuation_block (self : analyzer) (special_counts : dict Z)
  : list (str * Z) :=
  if enable_punctuation_stats self
     && existsb (fun count => (min_frequency self <=? count)%Z)
                (map snd special_counts)
  then
    map (fun e => (display_name (fst e), snd e))
        (filter (fun e => (min_frequency self <=? snd e)%Z) special_counts)
  else [].

(** The entries of the ranked result that the listings of [save_results]
    skip. *)
Definition skipped (sorted_freq : list (str * Z)) : list (str * Z) :=
  filter (fun e => startswith pseudo_prefix (fst e)) sorted_freq.

(** The rendering library: [WordCloud(...).generate_from_frequencies],
    [to_file] as the bytes it writes, and the display by [matplotlib];
    each may raise. *)
Class CloudRenderer := {
  image : Type;
  generate : option str -> Z -> Z -> str -> Z -> dict Z -> result image;
  to_bytes : image -> list byte;
  show : image -> result unit
}.

(** [generate_wordcloud]; [now] is [datetime.now().strftime(...)]. Every
    exception is caught and turned into [None].  A failed [to_file] is
    taken to leave no file. *)
Definition generate_wordcloud {CR : CloudRenderer} (self : analyzer)
  (fs : filesystem) (now : str) (sorted_freq : list (str * Z))
  : option str * filesystem :=
  let word_freq := cloud_frequencies sorted_freq in
  match word_freq with
  | [] => (None, fs)
  | _ :: _ =>
      let settings := u "settings" in
      let prepared :=
        max_words <- config_getint (config self) settings
                                   (u "wordcloud_max_words") ;;
        width <- config_getint (config self) settings (u "wordcloud_width") ;;
        height <- config_getint (config self) settings
                                (u "wordcloud_height") ;;
        bg_color <- config_get (config self) settings
                               (u "wordcloud_background_color") ;;
        font_path <- config_get (config self) settings (u "font_path") ;;
        let font_path :=
          if path_exists fs font_path then Some font_path else None in
        wc <- generate font_path width height bg_color max_words word_freq ;;
        Return (wc, (u "词云_" ++ now ++ u ".png")%list) in
      match prepared with
      | Raise _ => (None, fs)
      | Return (wc, wordcloud_file) =>
          match config_getboolean (config self) settings
                                  (u "save_wordcloud") with
          | Raise _ => (None, fs)
          | Return save =>
              match (if save
                     then write_file fs wordcloud_file (to_bytes wc)
                     else Return fs) with
              | Raise _ => (None, fs)
              | Return fs' =>
                  match config_getboolean (config self) settings
                                          (u "show_wordcloud") with
                  | Raise _ => (None, fs')
                  | Return display =>
                      match (if display then show wc else Return tt) with
                      | Raise _ => (None, fs')
                      | Return _ => (Some wordcloud_file, fs')
                      end
                  end
              end
          end
      end
  end.

(** A stand-in for the rendering library: every picture is drawn, saved
    as one byte and shown. *)
Definition plain_renderer : CloudRenderer :=
  {| image := unit;
     generate := fun _ _ _ _ _ _ => Return tt;
     to_bytes := fun _ => [x89];
     show := fun _ => Return tt |}.

(* ================================================================== *)
(** * Facts about strings *)

Lemma str_eqb_spec (a b : str) : str_eqb a b = true <-> a = b.
Proof.
  revert b; induction a as [|x a IH]; intros [|y b]; simpl;
    try (split; [discriminate | congruence]); try tauto.
  rewrite andb_true_iff, N.eqb_eq, IH.
  split; [intros [-> ->]; reflexivity | intros E; inversion E; auto].
Qed.

Lemma str_eqb_refl (a : str) : str_eqb a a = true.
Proof. apply str_eqb_spec; reflexivity. Qed.

Lemma str_eqb_neq (a b : str) : a <> b -> str_eqb a b = false.
Proof.
  intros N; destruct (str_eqb a b) eqn:E; [|reflexivity].
  apply str_eqb_spec in E; contradiction.
Qed.

Lemma lstrip_tight (s : str) : tight (lstrip s).
Proof.
  induction s as [|c t IH]; simpl; [exact I|].
  destruct (is_space c) eqn:E; [exact IH | exact E].
Qed.

Lemma lstrip_fix (s : str) : tight s -> lstrip s = s.
Proof. destruct s as [|c t]; simpl; [reflexivity | intros ->; reflexivity]. Qed.

Lemma lstrip_snoc (l : str) (c : char) :
  lstrip (l ++ [c]) =
  match lstrip l with
  | [] => if is_space c then [] else [c]
  | _ :: _ => lstrip l ++ [c]
  end.
Proof.
  induction l as [|a l IH]; simpl; [reflexivity|].
  destruct (is_space a); [exact IH | reflexivity].
Qed.

(** [rstrip] read from the left. *)
Lemma rstrip_cons (c : char) (t : str) :
  rstrip (c :: t) =
  match rstrip t with
  | [] => if is_space c then [] else [c]
  | _ :: _ => c :: rstrip t
  end.
Proof.
  unfold rstrip; simpl rev at 2; rewrite lstrip_snoc.
  destruct (lstrip (rev t)) as [|a l] eqn:E; simpl.
  - destruct (is_space c); reflexivity.
  - destruct (rev l ++ [a]) eqn:E2.
    + destruct (rev l); discriminate.
    + rewrite rev_app_distr; simpl. rewrite <- E2; reflexivity.
Qed.

Lemma rstrip_tight (s : str) : tight s -> tight (rstrip s).
Proof.
  destruct s as [|c t]; [intros _; exact I|].
  simpl; intros Hc; rewrite rstrip_cons.
  destruct (rstrip t); [rewrite Hc|]; exact Hc.
Qed.

Lemma rstrip_idem (s : str) : rstrip (rstrip s) = rstrip s.
Proof.
  unfold rstrip; rewrite rev_involutive.
  rewrite (lstrip_fix _ (lstrip_tight (rev s))); reflexivity.
Qed.

Lemma strip_idem (s : str) : strip (strip s) = strip s.
Proof.
  unfold strip.
  rewrite (lstrip_fix _ (rstrip_tight _ (lstrip_tight s))).
  apply rstrip_idem.
Qed.

Lemma lstrip_incl (s : str) (c : char) : In c (lstrip s) -> In c s.
Proof.
  induction s as [|a t IH]; simpl; [tauto|].
  destruct (is_space a); simpl; tauto.
Qed.

Lemma rstrip_incl (s : str) (c : char) : In c (rstrip s) -> In c s.
Proof.
  unfold rstrip; intros H.
  apply in_rev, lstrip_incl, in_rev in H; exact H.
Qed.

Lemma strip_incl (s : str) (c : char) : In c (strip s) -> In c s.
Proof. intros H; apply lstrip_incl, rstrip_incl, H. Qed.

Lemma startswith_head (p s : str) (c : char) :
  startswith (c :: p) s = true -> In c s.
Proof.
  destruct s as [|y s']; simpl; [discriminate|].
  rewrite andb_true_iff, N.eqb_eq; intros [-> _]; left; reflexivity.
Qed.

(* ================================================================== *)
(** * Facts about the matcher *)

Lemma plus_cls_sound p s k y :
  plus_cls p s k = Some y ->
  exists c w s', s = (c :: w) ++ s' /\ p c = true
                 /\ Forall (fun x => p x = true) w /\ k s' = Some y.
Proof.
  revert y; induction s as [|x s IH]; simpl; intros y H; [discriminate|].
  destruct (p x) eqn:Px; [|discriminate].
  destruct (plus_cls p s k) as [r|] eqn:E.
  - destruct (IH _ eq_refl) as (c & w & s' & -> & Pc & Pw & Hk).
    exists x, (c :: w), s'; repeat split; auto.
    inversion H; subst; exact Hk.
  - exists x, [], s; repeat split; auto.
Qed.

(** What the matcher consumes is a word of the pattern. *)
Lemma rmatch_sound r : forall s k y,
  rmatch r s k = Some y ->
  exists w s', s = w ++ s' /\ matches r w /\ k s' = Some y.
Proof.
  induction r as [c|p|r1 IH1 r2 IH2|r IH|p]; simpl; intros s k y H.
  - destruct s as [|x s']; [discriminate|].
    destruct (N.eqb_spec x c); [subst|discriminate].
    exists [c], s'; repeat split; auto using matches.
  - destruct s as [|x s']; [discriminate|].
    destruct (p x) eqn:Px; [|discriminate].
    exists [x], s'; repeat split; auto using matches.
  - apply IH1 in H as (w1 & s1 & -> & M1 & H).
    apply IH2 in H as (w2 & s2 & -> & M2 & H).
    exists (w1 ++ w2), s2; rewrite app_assoc; repeat split; auto using matches.
  - destruct (rmatch r s k) as [z|] eqn:E.
    + inversion H; subst z.
      apply IH in E as (w & s' & -> & M & Hk).
      exists w, s'; repeat split; auto using matches.
    + exists [], s; repeat split; auto using matches.
  - apply plus_cls_sound in H as (c & w & s' & -> & Pc & Pw & Hk).
    exists (c :: w), s'; repeat split; auto using matches.
Qed.

Lemma re_match_sound r s rest :
  re_match r s = Some rest -> exists w, s = w ++ rest /\ matches r w.
Proof.
  intros H; apply rmatch_sound in H as (w & s' & -> & M & E).
  inversion E; subst; eauto.
Qed.

Lemma sub_go_skip r repl n : forall s,
  sub_go r repl n s = sub_go r repl 0 (skipn n s).
Proof.
  induction n as [|n IH]; intros s; [reflexivity|].
  destruct s as [|x s']; [reflexivity|]. simpl skipn. rewrite <- IH. reflexivity.
Qed.

Section Substitution.
Variables (r : regex) (repl : str).
Hypothesis nonempty : ~ matches r [].

Lemma re_sub_nil : re_sub r repl [] = [].
Proof.
  unfold re_sub; simpl.
  destruct (re_match r []) as [rest|] eqn:E; [|reflexivity].
  apply re_match_sound in E as (w & E & M).
  symmetry in E; apply app_eq_nil in E as [-> _]; contradiction.
Qed.

Lemma re_sub_miss x s :
  re_match r (x :: s) = None -> re_sub r repl (x :: s) = x :: re_sub r repl s.
Proof. unfold re_sub; simpl; intros ->; reflexivity. Qed.

Lemma re_sub_hit x s rest :
  re_match r (x :: s) = Some rest ->
  re_sub r repl (x :: s) = repl ++ re_sub r repl rest
  /\ exists w, x :: s = (x :: w) ++ rest /\ matches r (x :: w).
Proof.
  intros H. pose proof (re_match_sound _ _ H) as (w & E & M).
  destruct w as [|y w]; [contradiction|].
  simpl in E; injection E as <- Es.
  split; [|exists w; split; [rewrite Es; reflexivity | exact M]].
  unfold re_sub. cbn [sub_go]. rewrite H.
  replace (List.length (x :: s) - List.length rest)%nat with (S (List.length w))
    by (rewrite Es; cbn [List.length]; rewrite length_app; lia).
  rewrite sub_go_skip, Es, skipn_app, skipn_all, Nat.sub_diag.
  reflexivity.
Qed.

(** Induction along the scan of [re_sub]. *)
Lemma re_sub_ind (P : str -> Prop) :
  P [] ->
  (forall x s, re_match r (x :: s) = None -> P s -> P (x :: s)) ->
  (forall x w rest, re_match r ((x :: w) ++ rest) = Some rest ->
                    matches r (x :: w) -> P rest -> P ((x :: w) ++ rest)) ->
  forall s, P s.
Proof.
  intros Hnil Hmiss Hhit s.
  remember (List.length s) as n eqn:En.
  revert s En; induction n as [n IH] using lt_wf_ind; intros s En.
  destruct s as [|x s]; [exact Hnil|].
  destruct (re_match r (x :: s)) as [rest|] eqn:E.
  - destruct (re_sub_hit _ _ E) as (_ & w & Es & M).
    rewrite Es in E |- *. apply Hhit; auto.
    apply (IH (List.length rest)); [|reflexivity].
    subst n; rewrite Es; cbn [List.length app]; rewrite length_app; lia.
  - apply Hmiss; auto. apply (IH (List.length s)); [subst n; simpl; lia | reflexivity].
Qed.

Lemma re_sub_incl s c : In c (re_sub r repl s) -> In c repl \/ In c s.
Proof.
  induction s as [|x s Hm IH|x w rest Hm M IH] using re_sub_ind.
  - rewrite re_sub_nil; simpl; tauto.
  - rewrite (re_sub_miss _ _ Hm); simpl; tauto.
  - change ((x :: w) ++ rest) with (x :: (w ++ rest)) in *.
    destruct (re_sub_hit x (w ++ rest) Hm) as (-> & _).
    simpl; rewrite !in_app_iff; tauto.
Qed.

(** A text without a character that every match contains is left as it is. *)
Lemma re_sub_without c s :
  (forall w, matches r w -> In c w) -> ~ In c s -> re_sub r repl s = s.
Proof.
  intros Hc; induction s as [|x s IH]; intros Hs; [apply re_sub_nil|].
  destruct (re_match r (x :: s)) as [rest|] eqn:E.
  - destruct (re_sub_hit _ _ E) as (_ & w & Es & M).
    exfalso; apply Hs; rewrite Es, in_app_iff; left; apply Hc, M.
  - rewrite (re_sub_miss _ _ E), IH; [reflexivity|].
    intros H; apply Hs; right; exact H.
Qed.

End Substitution.

Lemma matches_seq r1 r2 w :
  matches (Seq r1 r2) w ->
  exists w1 w2, w = w1 ++ w2 /\ matches r1 w1 /\ matches r2 w2.
Proof. intros M; inversion M; subst; eauto. Qed.

Lemma matches_lits p r w :
  matches (lits p r) w -> exists w', w = p ++ w' /\ matches r w'.
Proof.
  revert w; induction p as [|c p IH]; simpl; intros w M; [eauto|].
  inversion M as [| |r1 r2 w1 w2 M1 M2| | |]; subst.
  inversion M1; subst.
  apply IH in M2 as (w' & -> & M2).
  exists w'; split; [reflexivity | exact M2].
Qed.

(* ================================================================== *)
(** * Facts about the Text Normalizer *)

(** A greedy run stops where the class stops. *)
Lemma plus_cls_greedy p s rest :
  plus_cls p s Some = Some rest ->
  match rest with
  | [] => True
  | c :: _ => p c = false
  end.
Proof.
  revert rest; induction s as [|x s IH]; simpl; intros rest H; [discriminate|].
  destruct (p x); [|discriminate].
  destruct (plus_cls p s Some) as [z|] eqn:E.
  - inversion H; subst z; apply IH; reflexivity.
  - inversion H; subst rest.
    destruct s as [|y s]; [exact I|].
    simpl in E. destruct (p y); [|reflexivity].
    destruct (plus_cls p s Some); discriminate.
Qed.

Lemma plus_cls_tight_none s :
  tight s -> plus_cls is_space s Some = None.
Proof. destruct s as [|c t]; simpl; [reflexivity | intros ->; reflexivity]. Qed.

Lemma single_spaced_lstrip s : single_spaced s -> single_spaced (lstrip s).
Proof.
  induction s as [|c t IH]; [intros _; exact I|].
  intros H; pose proof H as [_ Ht]; simpl lstrip.
  destruct (is_space c); [exact (IH Ht) | exact H].
Qed.

Lemma single_spaced_rstrip s : single_spaced s -> single_spaced (rstrip s).
Proof.
  induction s as [|c t IH]; [intros _; exact I|].
  intros [Hc Ht]. rewrite rstrip_cons.
  destruct (rstrip t) as [|d r] eqn:E.
  - destruct (is_space c) eqn:Ec; simpl; [exact I|].
    split; [congruence | exact I].
  - split; [|exact (IH Ht)].
    intros Hs; destruct (Hc Hs) as [-> Tt]; split; [reflexivity|].
    rewrite <- E; apply rstrip_tight, Tt.
Qed.

Lemma single_spaced_strip s : single_spaced s -> single_spaced (strip s).
Proof. intros H; apply single_spaced_rstrip, single_spaced_lstrip, H. Qed.

Section NormalizerFacts.
Context {UD : Unicode}.

Lemma url_has_colon w : matches url_re w -> In 58%N w.
Proof.
  unfold url_re; intros M.
  apply matches_lits in M as (w1 & -> & M).
  apply matches_seq in M as (wa & wb & -> & _ & Mb).
  apply matches_lits in Mb as (w2 & -> & _).
  rewrite !in_app_iff; right; right; left.
  vm_compute; auto.
Qed.

Lemma email_has_at w : matches email_re w -> In 64%N w.
Proof.
  unfold email_re; intros M.
  apply matches_seq in M as (wa & wb & -> & _ & Mb).
  apply matches_seq in Mb as (wc & wd & -> & Mc & _).
  inversion Mc; subst.
  rewrite !in_app_iff; right; left; left; reflexivity.
Qed.

Lemma url_nonempty : ~ matches url_re [].
Proof. intros M; apply url_has_colon in M; exact M. Qed.

Lemma email_nonempty : ~ matches email_re [].
Proof. intros M; apply email_has_at in M; exact M. Qed.

Lemma special_nonempty : ~ matches special_re [].
Proof. intros M; inversion M. Qed.

Lemma spaces_nonempty : ~ matches spaces_re [].
Proof. intros M; inversion M. Qed.

(** The third substitution deletes the characters outside the class. *)
Lemma re_sub_special s : re_sub special_re [] s = filter kept s.
Proof.
  induction s as [|x s IH]; [apply re_sub_nil, special_nonempty|].
  simpl filter. destruct (kept x) eqn:K.
  - rewrite re_sub_miss, IH; [reflexivity|].
    unfold re_match; simpl; rewrite K; reflexivity.
  - assert (H : re_match special_re (x :: s) = Some s)
      by (unfold re_match; simpl; rewrite K; reflexivity).
    destruct (re_sub_hit [] special_nonempty x s H) as [-> _]; exact IH.
Qed.

Lemma kept_colon : kept 58%N = false.
Proof. vm_compute; reflexivity. Qed.

Lemma kept_at : kept 64%N = false.
Proof. vm_compute; reflexivity. Qed.

Lemma kept_bracket : kept 91%N = false.
Proof. vm_compute; reflexivity. Qed.

Lemma kept_blank : kept 32%N = true.
Proof. vm_compute; reflexivity. Qed.

Lemma blank_literal : u " " = [32%N].
Proof. vm_compute; reflexivity. Qed.

(** The fourth substitution leaves single blanks only. *)
Lemma spaces_single s :
  single_spaced (re_sub spaces_re (u " ") s)
  /\ (tight s -> tight (re_sub spaces_re (u " ") s)).
Proof.
  induction s as [|x s Hm IH|x w rest Hm M IH]
    using (re_sub_ind (u " ") spaces_nonempty).
  - rewrite re_sub_nil by apply spaces_nonempty; split; [exact I | auto].
  - rewrite re_sub_miss by exact Hm.
    assert (Hx : is_space x = false).
    { unfold re_match in Hm; simpl in Hm.
      destruct (is_space x); [|reflexivity].
      destruct (plus_cls is_space s Some); discriminate. }
    split; [|intros _; exact Hx].
    split; [congruence | apply IH].
  - change ((x :: w) ++ rest) with (x :: (w ++ rest)) in *.
    destruct (re_sub_hit (u " ") spaces_nonempty x (w ++ rest) Hm) as [-> _].
    rewrite blank_literal.
    split.
    + split; [|apply IH].
      intros _; split; [reflexivity|].
      apply IH. apply (plus_cls_greedy _ _ Hm).
    + inversion M; subst. simpl; congruence.
Qed.

(** A single-spaced text is a fixed point of the fourth substitution. *)
Lemma spaces_fix s : single_spaced s -> re_sub spaces_re (u " ") s = s.
Proof.
  induction s as [|c t IH]; [intros _; apply re_sub_nil, spaces_nonempty|].
  intros [Hc Ht]. destruct (is_space c) eqn:Ec.
  - destruct (Hc eq_refl) as [-> Tt].
    assert (H : re_match spaces_re (32%N :: t) = Some t).
    { unfold re_match; simpl. rewrite (plus_cls_tight_none _ Tt); reflexivity. }
    destruct (re_sub_hit (u " ") spaces_nonempty _ _ H) as [-> _].
    rewrite (IH Ht), blank_literal; reflexivity.
  - rewrite re_sub_miss, (IH Ht); [reflexivity|].
    unfold re_match; simpl; rewrite Ec; reflexivity.
Qed.

(** Every character of a normalized line is in the allowed class. *)
Lemma preprocess_kept s c : In c (preprocess_text s) -> kept c = true.
Proof.
  unfold preprocess_text; intros H.
  apply strip_incl, (re_sub_incl _ spaces_nonempty) in H.
  destruct H as [H|H].
  - rewrite blank_literal in H; destruct H as [<-|[]]; apply kept_blank.
  - rewrite re_sub_special in H; apply filter_In in H; tauto.
Qed.

Lemma preprocess_single_spaced s : single_spaced (preprocess_text s).
Proof. apply single_spaced_strip, spaces_single. Qed.

Lemma filter_fix {A} (f : A -> bool) (l : list A) :
  (forall x, In x l -> f x = true) -> filter f l = l.
Proof.
  induction l as [|x l IH]; simpl; intros H; [reflexivity|].
  rewrite (H x (or_introl eq_refl)), IH; auto.
Qed.

Lemma preprocess_no_bracket s : ~ In 91%N (preprocess_text s).
Proof.
  intros H; apply preprocess_kept in H; rewrite kept_bracket in H; discriminate.
Qed.

End NormalizerFacts.

(* ================================================================== *)
(** * Facts about dictionaries and folds *)

Lemma fold_left_inv {A B} (f : A -> B -> A) (P : A -> Prop) (l : list B) :
  forall a, P a -> (forall a x, In x l -> P a -> P (f a x)) ->
            P (fold_left f l a).
Proof.
  induction l as [|x l IH]; simpl; intros a Ha Hf; [exact Ha|].
  apply IH; [apply Hf; auto | intros; apply Hf; auto].
Qed.

Lemma dict_set_in {V} (k : str) (v : V) (d : dict V) (a : str) (b : V) :
  In (a, b) (dict_set k v d) -> (a = k /\ b = v) \/ In (a, b) d.
Proof.
  induction d as [|[k' v'] t IH]; simpl.
  - intros [E|[]]; inversion E; auto.
  - destruct (str_eqb k k') eqn:E; simpl.
    + apply str_eqb_spec in E; subst k'.
      intros [H|H]; [inversion H; auto | auto].
    + intros [H|H]; [auto | apply IH in H; tauto].
Qed.

Lemma dict_set_keys {V} (k : str) (v : V) (d : dict V) (a : str) :
  In a (keys d) -> In a (keys (dict_set k v d)).
Proof.
  unfold keys; induction d as [|[k' v'] t IH]; simpl; [tauto|].
  destruct (str_eqb k k'); simpl; tauto.
Qed.

Lemma dict_set_key {V} (k : str) (v : V) (d : dict V) :
  In k (keys (dict_set k v d)).
Proof.
  unfold keys; induction d as [|[k' v'] t IH]; simpl; [auto|].
  destruct (str_eqb k k') eqn:E; simpl; [|auto].
  apply str_eqb_spec in E; auto.
Qed.

Lemma dict_set_fresh {V} (k : str) (v : V) (d : dict V) :
  ~ In k (keys d) -> dict_set k v d = d ++ [(k, v)].
Proof.
  unfold keys; induction d as [|[k' v'] t IH]; simpl; intros H; [reflexivity|].
  rewrite str_eqb_neq by (intros ->; apply H; auto).
  rewrite IH; [reflexivity | tauto].
Qed.

Lemma dict_get_set_same {V} (k : str) (v : V) (d : dict V) :
  dict_get k (dict_set k v d) = Some v.
Proof.
  induction d as [|[k' v'] t IH]; simpl; [rewrite str_eqb_refl; reflexivity|].
  destruct (str_eqb k k') eqn:E; simpl; rewrite E; auto.
Qed.

Lemma dict_get_set_other {V} (k k2 : str) (v : V) (d : dict V) :
  k2 <> k -> dict_get k2 (dict_set k v d) = dict_get k2 d.
Proof.
  intros N; induction d as [|[k' v'] t IH]; simpl.
  - rewrite str_eqb_neq; auto.
  - destruct (str_eqb k k') eqn:E; simpl; [|rewrite IH; reflexivity].
    apply str_eqb_spec in E; subst k'.
    rewrite (str_eqb_neq N); reflexivity.
Qed.

(* ================================================================== *)
(** * Facts about the sort *)

Section Sorting.
Context {A : Type} (key : A -> Z).

Lemma insert_desc_perm x l : Permutation (x :: l) (insert_desc key x l).
Proof.
  induction l as [|y t IH]; simpl; [reflexivity|].
  destruct (key y <=? key x)%Z; [reflexivity|].
  rewrite perm_swap; apply perm_skip, IH.
Qed.

Lemma sorted_desc_perm l : Permutation l (sorted_desc key l).
Proof.
  induction l as [|x l IH]; simpl; [reflexivity|].
  rewrite <- insert_desc_perm; apply perm_skip, IH.
Qed.

Lemma insert_desc_sorted x l :
  StronglySorted (descending key) l -> StronglySorted (descending key) (insert_desc key x l).
Proof.
  induction l as [|y t IH]; simpl; intros S.
  - constructor; [constructor | constructor].
  - inversion S as [|? ? St Hy]; subst.
    destruct (key y <=? key x)%Z eqn:E.
    + apply Z.leb_le in E. constructor; [exact S|].
      constructor; [exact E|].
      eapply Forall_impl; [|exact Hy].
      unfold descending; intros; lia.
    + apply Z.leb_gt in E. constructor; [apply IH, St|].
      rewrite <- insert_desc_perm.
      constructor; [unfold descending; lia | exact Hy].
Qed.

Lemma sorted_desc_sorted l : StronglySorted (descending key) (sorted_desc key l).
Proof.
  induction l as [|x l IH]; simpl; [constructor | apply insert_desc_sorted, IH].
Qed.

(** Entries of one count keep the order they had. *)
Lemma insert_desc_stable n x l :
  filter (fun e => (key e =? n)%Z) (insert_desc key x l)
  = filter (fun e => (key e =? n)%Z) (x :: l).
Proof.
  induction l as [|y t IH]; [reflexivity|].
  cbn [insert_desc]. destruct (key y <=? key x)%Z eqn:E; [reflexivity|].
  apply Z.leb_gt in E.
  cbn [filter] in *. rewrite IH.
  destruct (key x =? n)%Z eqn:Ex; [|reflexivity].
  apply Z.eqb_eq in Ex.
  replace (key y =? n)%Z with false; [reflexivity|].
  symmetry; apply Z.eqb_neq; lia.
Qed.

Lemma sorted_desc_stable n l :
  filter (fun e => (key e =? n)%Z) (sorted_desc key l)
  = filter (fun e => (key e =? n)%Z) l.
Proof.
  induction l as [|x l IH]; [reflexivity|].
  simpl sorted_desc. rewrite insert_desc_stable.
  cbn [filter]. rewrite IH; reflexivity.
Qed.

End Sorting.

(* ================================================================== *)
(** * Facts about the Filter & Rank Engine *)

Lemma filter_words_in self wf l c :
  In (l, c) (filter_words self wf) -> keeps self (l, c) = true.
Proof.
  unfold filter_words.
  apply (fold_left_inv _ (fun acc => In (l, c) acc -> keeps self (l, c) = true)).
  - intros [].
  - intros acc [w f] _ IH; unfold keeps; simpl.
    destruct (negb (mem w (stopwords self)) && (min_frequency self <=? f)%Z)
      eqn:E; [|exact IH].
    intros H; apply dict_set_in in H as [[-> ->]|H]; [exact E | exact (IH H)].
Qed.

Lemma add_special_in self sc d l c :
  In (l, c) (add_special self sc d) ->
  In (l, c) d
  \/ ((min_frequency self <= c)%Z
      /\ exists name, In (name, c) sc /\ l = display_name name).
Proof.
  unfold add_special.
  apply (fold_left_inv _
    (fun acc => In (l, c) acc ->
       In (l, c) d
       \/ ((min_frequency self <= c)%Z
           /\ exists name, In (name, c) sc /\ l = display_name name))).
  - auto.
  - intros acc [name count] Hin IH.
    destruct (min_frequency self <=? count)%Z eqn:E; [|exact IH].
    intros H; apply dict_set_in in H as [[-> ->]|H]; [|exact (IH H)].
    right; split; [apply Z.leb_le, E | eauto].
Qed.

Lemma add_special_keys self sc d a :
  In a (keys d) -> In a (keys (add_special self sc d)).
Proof.
  unfold add_special.
  apply (fold_left_inv _ (fun acc => In a (keys d) -> In a (keys acc))).
  - auto.
  - intros acc [name count] _ IH H.
    destruct (min_frequency self <=? count)%Z; [|auto].
    apply dict_set_keys; auto.
Qed.

Lemma add_special_adds self sc : forall d name count,
  In (name, count) sc -> (min_frequency self <= count)%Z ->
  In (display_name name) (keys (add_special self sc d)).
Proof.
  induction sc as [|[n c] sc IH]; intros d name count Hin Hc; [destruct Hin|].
  destruct Hin as [E|Hin].
  - inversion E; subst n c.
    unfold add_special; simpl.
    apply Z.leb_le in Hc; rewrite Hc.
    apply (add_special_keys self sc), dict_set_key.
  - unfold add_special; simpl. eapply IH; eauto.
Qed.

Lemma candidates_in self wf sc l c :
  In (l, c) (candidates self wf sc) ->
  (min_frequency self <= c)%Z
  /\ (mem l (stopwords self) = false \/ synthesized self sc l).
Proof.
  unfold candidates, synthesized.
  assert (W : In (l, c) (filter_words self wf) ->
              (min_frequency self <= c)%Z /\ mem l (stopwords self) = false).
  { intros H; apply filter_words_in in H; unfold keeps in H; simpl in H.
    apply andb_true_iff in H as [H1 H2].
    apply negb_true_iff in H1; apply Z.leb_le in H2; auto. }
  destruct (enable_punctuation_stats self); [|intros H; apply W in H; tauto].
  intros H; apply add_special_in in H as [H|(Hc & name & Hn & ->)].
  - apply W in H; tauto.
  - split; [exact Hc|]. right; split; [reflexivity|]. eauto.
Qed.

Lemma filter_and_sort_in self wf sc e :
  In e (filter_and_sort self wf sc) <-> In e (candidates self wf sc).
Proof.
  unfold filter_and_sort; split; apply Permutation_in;
    [symmetry|]; apply sorted_desc_perm.
Qed.

(** On a table with distinct keys the comprehension is a filter that keeps
    the order of the table. *)
Lemma filter_words_acc self : forall wf acc,
  NoDup (keys wf) -> (forall k, In k (keys wf) -> ~ In k (keys acc)) ->
  fold_left
    (fun acc '(word, freq) =>
       if negb (mem word (stopwords self))
          && (min_frequency self <=? freq)%Z
       then dict_set word freq acc
       else acc) wf acc
  = acc ++ filter (keeps self) wf.
Proof.
  induction wf as [|[w f] wf IH]; intros acc ND Hd.
  - simpl; rewrite app_nil_r; reflexivity.
  - simpl in ND; inversion ND as [|? ? Hw ND']; subst.
    cbn [fold_left filter].
    change (keeps self (w, f))
      with (negb (mem w (stopwords self)) && (min_frequency self <=? f)%Z).
    destruct (negb (mem w (stopwords self)) && (min_frequency self <=? f)%Z).
    + rewrite dict_set_fresh by (apply Hd; left; reflexivity).
      rewrite IH; [rewrite <- app_assoc; reflexivity | exact ND' |].
      intros k Hk; unfold keys; rewrite map_app, in_app_iff; simpl.
      intros [H|[<-|[]]]; [apply (Hd k); [right|]; assumption | exact (Hw Hk)].
    + apply IH; [exact ND'|]. intros k Hk; apply Hd; right; exact Hk.
Qed.

Lemma filter_words_nodup self wf :
  NoDup (keys wf) -> filter_words self wf = filter (keeps self) wf.
Proof.
  intros ND; unfold filter_words.
  rewrite filter_words_acc; [reflexivity | exact ND | intros k _ []].
Qed.

(* ================================================================== *)
(** * Facts about the loop of [analyze_chat_file] *)

Lemma dict_get_in {V} (k : str) (v : V) (d : dict V) :
  dict_get k d = Some v -> In (k, v) d.
Proof.
  induction d as [|[k' v'] t IH]; simpl; [discriminate|].
  destruct (str_eqb k k') eqn:E; [|auto].
  apply str_eqb_spec in E; subst k'; intros H; inversion H; auto.
Qed.

Lemma names_differ : name_question <> name_period.
Proof. vm_compute; discriminate. Qed.

Lemma ready_set name v sc : ready sc -> ready (dict_set name v sc).
Proof.
  intros [[a Ha] [b Hb]]; split.
  - destruct (str_eqb name_period name) eqn:E.
    + apply str_eqb_spec in E; subst name.
      rewrite dict_get_set_same; eauto.
    + rewrite dict_get_set_other; eauto.
      intros H; rewrite H, str_eqb_refl in E; discriminate.
  - destruct (str_eqb name_question name) eqn:E.
    + apply str_eqb_spec in E; subst name.
      rewrite dict_get_set_same; eauto.
    + rewrite dict_get_set_other; eauto.
      intros H; rewrite H, str_eqb_refl in E; discriminate.
Qed.

Lemma ready_initial : ready (special_counts initial_locals).
Proof. split; eexists; vm_compute; reflexivity. Qed.

Lemma consume_period st :
  ready (special_counts st) ->
  exists st', consume name_period st = Return st'
              /\ ready (special_counts st') /\ word_freq st' = word_freq st.
Proof.
  intros R; pose proof R as [[a Ha] _].
  unfold consume, tally_incr; rewrite Ha; simpl.
  eexists; split; [reflexivity|]; split; [apply ready_set, R | reflexivity].
Qed.

Lemma consume_question st :
  ready (special_counts st) ->
  exists st', consume name_question st = Return st'
              /\ ready (special_counts st') /\ word_freq st' = word_freq st.
Proof.
  intros R; pose proof R as [_ [b Hb]].
  unfold consume, tally_incr; rewrite Hb; simpl.
  eexists; split; [reflexivity|]; split; [apply ready_set, R | reflexivity].
Qed.

Section PipelineFacts.
Context {UD : Unicode} {SG : Segmenter}.

Lemma count_words_tally st n line :
  special_counts (count_words st n line) = special_counts st.
Proof. unfold count_words; destruct (preprocess_text line); reflexivity. Qed.

(** An iteration never raises, and either leaves the word counts alone or
    counts the words of the line. *)
Lemma process_line_total self st n line :
  ready (special_counts st) ->
  exists st', process_line self st n line = Return st'
              /\ ready (special_counts st')
              /\ (word_freq st' = word_freq st
                  \/ word_freq st' = word_freq (count_words st n line)).
Proof.
  intros R. unfold process_line.
  assert (C : exists st', Return (count_words st n line) = Return st'
              /\ ready (special_counts st')
              /\ (word_freq st' = word_freq st
                  \/ word_freq st' = word_freq (count_words st n line))).
  { eexists; split; [reflexivity|]; rewrite count_words_tally; auto. }
  assert (P : exists st', consume name_period st = Return st'
              /\ ready (special_counts st')
              /\ (word_freq st' = word_freq st
                  \/ word_freq st' = word_freq (count_words st n line))).
  { destruct (consume_period st R) as (st' & E & R' & W); eauto. }
  assert (Q : exists st', consume name_question st = Return st'
              /\ ready (special_counts st')
              /\ (word_freq st' = word_freq st
                  \/ word_freq st' = word_freq (count_words st n line))).
  { destruct (consume_question st R) as (st' & E & R' & W); eauto. }
  destruct (enable_punctuation_stats self); [|exact C].
  repeat match goal with
         | |- context [if ?b then _ else _] => destruct b
         end; assumption.
Qed.

(** A property of the word counts that counting a line keeps is kept by
    the whole loop, which always returns. *)
Lemma for_lines_total self (Q : dict Z -> Prop) :
  (forall st n line, Q (word_freq st) -> Q (word_freq (count_words st n line))) ->
  forall lines n st,
    ready (special_counts st) -> Q (word_freq st) ->
    exists st', for_lines self n lines st = Return st'
                /\ ready (special_counts st') /\ Q (word_freq st').
Proof.
  intros HQ; induction lines as [|line rest IH]; intros n st R Hq; simpl.
  - eauto.
  - destruct (process_line_total self st n line R) as (st1 & -> & R1 & W).
    simpl. apply IH; [exact R1|].
    destruct W as [-> | ->]; [exact Hq | apply HQ, Hq].
Qed.

Lemma count_words_inv (Q : dict Z -> Prop) st n line :
  (forall word wf, In word (extract_words (preprocess_text line)) ->
                   Q wf -> Q (counter_incr word wf)) ->
  Q (word_freq st) -> Q (word_freq (count_words st n line)).
Proof.
  intros Hstep Hq. unfold count_words.
  destruct (preprocess_text line) as [|c t] eqn:E; [exact Hq|].
  simpl word_freq.
  apply fold_left_inv; [exact Hq|].
  intros wf word Hin; apply Hstep, Hin.
Qed.

Lemma counter_incr_counted word wf : counted wf -> counted (counter_incr word wf).
Proof.
  intros H w c Hin. unfold counter_incr in Hin.
  apply dict_set_in in Hin as [[-> ->]|Hin]; [|exact (H _ _ Hin)].
  destruct (dict_get word wf) as [v|] eqn:E; [|lia].
  apply dict_get_in, H in E; lia.
Qed.

Lemma counter_incr_bracket_free word wf :
  ~ In 91%N word -> bracket_free wf -> bracket_free (counter_incr word wf).
Proof.
  intros Hw H w c Hin. unfold counter_incr in Hin.
  apply dict_set_in in Hin as [[-> _]|Hin]; [exact Hw | exact (H _ _ Hin)].
Qed.

Lemma extract_words_chars text word c :
  (forall t w x, In w (lcut t) -> In x w -> In x t) ->
  In word (extract_words text) -> In c word -> In c text.
Proof.
  intros Hseg Hin Hc. unfold extract_words in Hin.
  apply in_map_iff in Hin as (w & <- & Hw).
  apply filter_In in Hw as [Hw _].
  apply strip_incl in Hc. exact (Hseg _ _ _ Hw Hc).
Qed.

(** What [analyze_chat_file] returns, by the state of the file. *)
Lemma analyze_readable self fs file_path bs text (Q : dict Z -> Prop) :
  node_at fs file_path = File bs -> utf8_decode bs = Some text ->
  Q [] ->
  (forall st n line, Q (word_freq st) -> Q (word_freq (count_words st n line))) ->
  exists wf sc, analyze_chat_file self fs file_path = Return (wf, sc)
                /\ ready sc /\ Q wf.
Proof.
  intros Hn Hd Q0 HQ. unfold analyze_chat_file, open_read.
  rewrite Hn, Hd; simpl.
  destruct (for_lines_total self Q HQ
              (lines_of (translate_newlines text)) 1 initial_locals
              ready_initial Q0) as (st' & -> & R & Hq).
  simpl; eauto.
Qed.

Lemma analyze_returns self fs file_path wf sc (Q : dict Z -> Prop) :
  analyze_chat_file self fs file_path = Return (wf, sc) ->
  Q [] ->
  (forall st n line, Q (word_freq st) -> Q (word_freq (count_words st n line))) ->
  Q wf.
Proof.
  intros H Q0 HQ. unfold analyze_chat_file, open_read in H.
  destruct (node_at fs file_path) as [| |bs] eqn:Hn; simpl in H;
    try (destruct (open_error fs file_path); inversion H; subst; exact Q0).
  destruct (utf8_decode bs) as [text|] eqn:Hd; simpl in H;
    [|inversion H; subst; exact Q0].
  destruct (for_lines_total self Q HQ
              (lines_of (translate_newlines text)) 1 initial_locals
              ready_initial Q0) as (st' & E & R & Hq).
  rewrite E in H; simpl in H; inversion H; subst; exact Hq.
Qed.

End PipelineFacts.

Lemma forallb_repeat (c : char) n : forallb (N.eqb c) (repeat c n) = true.
Proof. induction n; simpl; [reflexivity | rewrite N.eqb_refl; assumption]. Qed.

Lemma pseudo_prefix_head :
  exists p, pseudo_prefix = 91%N :: p.
Proof. eexists; vm_compute; reflexivity. Qed.

Lemma startswith_pseudo_bracket w :
  startswith pseudo_prefix w = true -> In 91%N w.
Proof.
  destruct pseudo_prefix_head as [p ->]; apply startswith_head.
Qed.

(* ================================================================== *)
(** * Facts about the Config Loader *)

Lemma fold_set_other (opts : dict str) : forall old k,
  ~ In k (keys opts) ->
  dict_get k (fold_left (fun o '(key, value) => dict_set key value o) opts old)
  = dict_get k old.
Proof.
  induction opts as [|[k1 v1] rest IH]; intros old k Hk; simpl; [reflexivity|].
  rewrite IH by (intros H; apply Hk; right; exact H).
  apply dict_get_set_other; intros ->; apply Hk; left; reflexivity.
Qed.

Lemma fold_set_get (opts : dict str) : forall old k v,
  NoDup (keys opts) -> In (k, v) opts ->
  dict_get k (fold_left (fun o '(key, value) => dict_set key value o) opts old)
  = Some v.
Proof.
  induction opts as [|[k1 v1] rest IH]; intros old k v ND Hin; [destruct Hin|].
  simpl in ND; inversion ND as [|? ? Hk ND']; subst.
  destruct Hin as [E|Hin]; simpl.
  - inversion E; subst. rewrite fold_set_other by exact Hk.
    apply dict_get_set_same.
  - apply IH; assumption.
Qed.

Lemma default_options_nodup : NoDup (keys default_options).
Proof.
  vm_compute.
  repeat (constructor; [simpl; intuition discriminate|]).
  constructor.
Qed.

Lemma read_dict_defaults (partial : configparser) :
  read_dict defaults partial
  = dict_set (u "settings")
      (fold_left (fun o '(key, value) => dict_set key value o)
                 default_options
                 match dict_get (u "settings") partial with
                 | Some o => o
                 | None => []
                 end)
      partial.
Proof. reflexivity. Qed.

(** A value without a percent sign is its own interpolation. *)
Lemma percent_pieces_plain (value : str) :
  existsb (N.eqb 37) value = false ->
  percent_pieces Plain value = map Text value.
Proof.
  induction value as [|c t IH]; [reflexivity|].
  cbn [existsb percent_pieces map].
  intros H; apply orb_false_iff in H as [Hc Ht].
  rewrite N.eqb_sym in Hc; rewrite Hc, (IH Ht); reflexivity.
Qed.

Lemma interpolate_plain depth lookup (value : str) :
  existsb (N.eqb 37) value = false ->
  interpolate (S depth) lookup value = Return value.
Proof.
  intros H; simpl; rewrite (percent_pieces_plain _ H).
  clear H; induction value as [|c t IH]; simpl; [reflexivity|].
  rewrite IH; reflexivity.
Qed.

(** The built-in options have lower-case names and plain values. *)
Lemma default_options_plain key value :
  In (key, value) default_options ->
  lower key = key /\ existsb (N.eqb 37) value = false.
Proof.
  intros Hin.
  assert (A : forallb (fun kv => str_eqb (lower (fst kv)) (fst kv)
                                 && negb (existsb (N.eqb 37) (snd kv)))
                      default_options = true)
    by (vm_compute; reflexivity).
  apply (proj1 (forallb_forall _ _) A) in Hin; simpl in Hin.
  apply andb_prop in Hin as [L P].
  split; [apply str_eqb_spec, L | apply negb_true_iff, P].
Qed.

(** After [read_dict(defaults)] every built-in option has its built-in
    value, whatever the parser held before. *)
Lemma read_dict_defaults_get (partial : configparser) key value :
  In (key, value) default_options ->
  config_get (read_dict defaults partial) (u "settings") key = Return value.
Proof.
  intros Hin. destruct (default_options_plain Hin) as [L P].
  unfold config_get.
  change (str_eqb (u "settings") default_section) with false; cbv iota.
  rewrite read_dict_defaults, dict_get_set_same, L.
  rewrite (fold_set_get _ _ _ _ default_options_nodup Hin).
  apply interpolate_plain, P.
Qed.

Lemma defaults_threshold (partial : configparser) :
  config_getint (read_dict defaults partial) (u "settings") (u "min_frequency")
  = Return 20%Z.
Proof.
  unfold config_getint.
  rewrite (@read_dict_defaults_get partial (u "min_frequency") (u "20"))
    by (vm_compute; auto).
  vm_compute; reflexivity.
Qed.

Lemma defaults_flag (partial : configparser) :
  config_getboolean (read_dict defaults partial) (u "settings")
                    (u "enable_punctuation_stats")
  = Return true.
Proof.
  unfold config_getboolean.
  rewrite (@read_dict_defaults_get partial (u "enable_punctuation_stats")
                                  (u "true"))
    by (vm_compute; auto).
  vm_compute; reflexivity.
Qed.

Section ConfigFacts.
Context {IF : IniFormat}.

(** No file: the defaults are used and written out, and an error of the
    write is swallowed. *)
Lemma init_missing fs config_file :
  node_at fs config_file = Absent ->
  (exists sw, fst (init fs config_file)
              = Return {| config := read_dict defaults [];
                          min_frequency := 20;
                          enable_punctuation_stats := true;
                          stopwords := sw |})
  /\ (create_error fs config_file = None ->
      node_at (snd (init fs config_file)) config_file
      = File (ini_render (read_dict defaults []))).
Proof.
  intros Hn. unfold init, load_config, path_exists, write_file.
  rewrite Hn. destruct (create_error fs config_file) as [e|].
  - rewrite defaults_threshold, defaults_flag; simpl.
    split; [eauto | discriminate].
  - rewrite defaults_threshold, defaults_flag; simpl.
    split; [eauto|]. intros _; rewrite str_eqb_refl; reflexivity.
Qed.

(** A file on which [config.read] raises: the defaults are used in memory
    and the file stays as it is. *)
Lemma init_malformed fs config_file bs partial e :
  node_at fs config_file = File bs -> ini_parse bs = (partial, Some e) ->
  (exists sw, fst (init fs config_file)
              = Return {| config := read_dict defaults partial;
                          min_frequency := 20;
                          enable_punctuation_stats := true;
                          stopwords := sw |})
  /\ snd (init fs config_file) = fs.
Proof.
  intros Hn Hp. unfold init, load_config, path_exists, config_read.
  rewrite Hn, Hp, defaults_threshold, defaults_flag; simpl.
  split; [eauto | reflexivity].
Qed.

(** A file that [open] refuses: [config.read] skips it without a word, no
    default is loaded, and the first [getint] raises. *)
Lemma init_unopenable fs config_file :
  node_at fs config_file = Unopenable ->
  path_exists fs config_file = true
  /\ fst (load_config fs config_file) = []
  /\ fst (init fs config_file) = Raise NoSectionError.
Proof.
  intros Hn. unfold init, load_config, path_exists, config_read.
  rewrite Hn; simpl. auto.
Qed.

(** A file that parses and has no section, the empty file for one. *)
Lemma init_sectionless fs config_file bs :
  node_at fs config_file = File bs -> ini_parse bs = ([], None) ->
  fst (init fs config_file) = Raise NoSectionError.
Proof.
  intros Hn Hp. unfold init, load_config, path_exists, config_read.
  rewrite Hn, Hp; reflexivity.
Qed.

End ConfigFacts.

Lemma split_blank_chars t : forall w x,
  In w (split_blank t) -> In x w -> In x t.
Proof.
  induction t as [|c t IH]; simpl; intros w x Hw Hx; [destruct Hw|].
  destruct (is_space c).
  - destruct Hw as [<-|Hw]; [destruct Hx as [<-|[]]; auto | right; eauto].
  - destruct (split_blank t) as [|[|d w'] ws] eqn:E.
    + destruct Hw as [<-|[]]; destruct Hx as [<-|[]]; auto.
    + destruct Hw as [<-|Hw]; [destruct Hx as [<-|[]]; auto|].
      right; apply (IH w x); auto.
    + destruct (is_space d).
      * destruct Hw as [<-|Hw]; [destruct Hx as [<-|[]]; auto|].
        right; apply (IH w x); auto.
      * destruct Hw as [<-|Hw].
        -- destruct Hx as [<-|Hx]; [auto|].
           right; apply (IH (d :: w')); simpl; auto.
        -- right; apply (IH w x); simpl; auto.
Qed.

Lemma add_special_none self sc :
  (forall name count, In (name, count) sc -> (count < min_frequency self)%Z) ->
  add_special self sc [] = [].
Proof.
  unfold add_special; induction sc as [|[n c] sc IH]; intros H; [reflexivity|].
  simpl. replace (min_frequency self <=? c)%Z with false.
  - apply IH; intros; eapply H; right; eauto.
  - symmetry; apply Z.leb_gt, (H n); left; reflexivity.
Qed.

(* ================================================================== *)
(** * The ranked result and the order of the table *)

Lemma display_name_inj (a b : str) : display_name a = display_name b -> a = b.
Proof.
  unfold display_name; intros H.
  apply app_inv_head, app_inv_tail in H; exact H.
Qed.

Lemma add_special_fresh self : forall sc d,
  NoDup (keys sc) ->
  (forall name, In name (keys sc) -> ~ In (display_name name) (keys d)) ->
  add_special self sc d = d ++ pseudo_entries self sc.
Proof.
  unfold add_special, pseudo_entries.
  induction sc as [|[n c] sc IH]; intros d ND Hd.
  - simpl; rewrite app_nil_r; reflexivity.
  - simpl in ND; inversion ND as [|? ? Hn ND']; subst.
    cbn [fold_left filter snd].
    destruct (min_frequency self <=? c)%Z.
    + rewrite dict_set_fresh by (apply Hd; left; reflexivity).
      rewrite IH; [rewrite <- app_assoc; reflexivity | exact ND' |].
      intros name Hname; unfold keys; rewrite map_app, in_app_iff.
      intros [H|[H|[]]].
      * apply (Hd name); [right; exact Hname | exact H].
      * simpl in H; apply display_name_inj in H; subst n; exact (Hn Hname).
    + apply IH; [exact ND'|].
      intros name Hname; apply Hd; right; exact Hname.
Qed.

Lemma filter_filter {A} (f g : A -> bool) (l : list A) :
  filter f (filter g l) = filter (fun x => g x && f x) l.
Proof.
  induction l as [|x l IH]; simpl; [reflexivity|].
  destruct (g x); simpl; [destruct (f x); rewrite IH|]; auto.
Qed.

(** X5. When the keys of the table are distinct, the categories of the
    tally are distinct and no pseudo-label is a key of the table, the entries of
    one count are ranked in the order of the table, the pseudo-labels of
    that count after them in the order of the tally. *)
Lemma ranking_keeps_table_order (self : analyzer) (wf sc : dict Z) (n : Z) :
  NoDup (keys wf) -> NoDup (keys sc) ->
  (forall name, In name (keys sc) -> ~ In (display_name name) (keys wf)) ->
  filter (fun e => (snd e =? n)%Z) (filter_and_sort self wf sc)
  = filter (fun e => keeps self e && (snd e =? n)%Z) wf
    ++ (if enable_punctuation_stats self
        then filter (fun e => (snd e =? n)%Z) (pseudo_entries self sc)
        else []).
Proof.
  intros NDw NDs Hd.
  unfold filter_and_sort; rewrite sorted_desc_stable.
  unfold candidates; rewrite (filter_words_nodup self _ NDw).
  destruct (enable_punctuation_stats self).
  - rewrite add_special_fresh; [|exact NDs|].
    + rewrite filter_app, filter_filter; reflexivity.
    + intros name Hname H. apply (Hd name Hname).
      unfold keys in *; apply in_map_iff in H as (e & E & He).
      apply filter_In in He as [He _].
      apply in_map_iff; exists e; auto.
  - rewrite filter_filter, app_nil_r; reflexivity.
Qed.


(* ================================================================== *)
(** * The claims *)

(** C1. Threshold invariant: every (label, count) pair of the list that
    [filter_and_sort] returns has a count of at least [min_frequency],
    for every table, tally, stopword set and threshold. *)
Theorem threshold_invariant (self : analyzer) (wf sc : dict Z)
  (label : str) (count : Z) :
  In (label, count) (filter_and_sort self wf sc) ->
  (min_frequency self <= count)%Z.
Proof.
  intros H; apply filter_and_sort_in, candidates_in in H; tauto.
Qed.

Lemma threshold_invariant_witness :
  In (u "你好", 25%Z) (filter_and_sort sample_analyzer sample_table [])
  /\ (min_frequency sample_analyzer <= 25)%Z.
Proof.
  assert (H : In (u "你好", 25%Z)
                 (filter_and_sort sample_analyzer sample_table []))
    by (vm_compute; left; reflexivity).
  split; [exact H|].
  exact (threshold_invariant sample_analyzer sample_table [] (u "你好") 25 H).
Defined.

(** C2. Stopword exclusion: a label of the ranked result that is in the
    stopword set is one that the loop over the punctuation tally
    synthesized; and every category whose tally reaches the threshold gets
    its pseudo-label into the result with no look at the stopword set. *)
Theorem stopword_exclusion (self : analyzer) (wf sc : dict Z) :
  (forall label count,
     In (label, count) (filter_and_sort self wf sc) ->
     mem label (stopwords self) = true ->
     synthesized self sc label)
  /\ (forall name count,
        enable_punctuation_stats self = true ->
        In (name, count) sc ->
        (min_frequency self <= count)%Z ->
        In (display_name name) (keys (filter_and_sort self wf sc))).
Proof.
  split.
  - intros label count H Hm.
    apply filter_and_sort_in, candidates_in in H as [_ [H|H]]; [|exact H].
    rewrite H in Hm; discriminate.
  - intros name count He Hin Hc.
    assert (K : In (display_name name) (keys (candidates self wf sc))).
    { unfold candidates; rewrite He. eapply add_special_adds; eauto. }
    unfold keys in *; apply in_map_iff in K as ([l c] & E & K).
    apply in_map_iff; exists (l, c); split; [exact E|].
    apply filter_and_sort_in, K.
Qed.

Lemma stopword_exclusion_witness :
  (mem (display_name name_period) (stopwords wary_analyzer) = true
   /\ synthesized wary_analyzer busy_tally (display_name name_period))
  /\ In (display_name name_period)
        (keys (filter_and_sort wary_analyzer busy_table busy_tally)).
Proof.
  destruct (stopword_exclusion wary_analyzer busy_table busy_tally) as [H1 H2].
  split; [split; [vm_compute; reflexivity|] |].
  - apply (H1 (display_name name_period) 30%Z);
      [vm_compute; right; left; reflexivity | vm_compute; reflexivity].
  - apply (H2 name_period 30%Z);
      [reflexivity | left; reflexivity | simpl; lia].
Defined.

(** C3. Determinism and stability: two runs of [filter_and_sort] on the
    same table and tally give the same list; the list is the candidates
    rearranged, in descending order of count; and for every count the
    entries of that count stand in the order they had among the candidates
    (the insertion order of [filtered_freq]): the sort is stable. *)
Theorem ranking_deterministic_and_stable (self : analyzer) (wf sc : dict Z) :
  (forall first second,
     first = filter_and_sort self wf sc ->
     second = filter_and_sort self wf sc ->
     first = second)
  /\ Permutation (candidates self wf sc) (filter_and_sort self wf sc)
  /\ StronglySorted (descending snd) (filter_and_sort self wf sc)
  /\ (forall n,
        filter (fun e => (snd e =? n)%Z) (filter_and_sort self wf sc)
        = filter (fun e => (snd e =? n)%Z) (candidates self wf sc)).
Proof.
  unfold filter_and_sort; repeat split.
  - intros first second -> ->; reflexivity.
  - apply sorted_desc_perm.
  - apply sorted_desc_sorted.
  - intros n; apply sorted_desc_stable.
Qed.

Lemma ranking_deterministic_and_stable_witness :
  filter_and_sort sample_analyzer busy_table busy_tally
  = [ (u "哈哈", 30%Z); (display_name name_period, 30%Z);
      (u "你好", 25%Z); (u "再见", 25%Z) ].
Proof.
  destruct (ranking_deterministic_and_stable
              sample_analyzer busy_table busy_tally) as [H _].
  apply H; [vm_compute | ]; reflexivity.
Defined.

Section Detector.
Context {UD : Unicode} {SG : Segmenter}.

Lemma repeat_not_single (c d : char) k :
  c <> d -> str_eqb (repeat c (S k)) [d] = false.
Proof. intros N; simpl; apply N.eqb_neq in N; rewrite N; reflexivity. Qed.

Lemma forallb_other (c d : char) k :
  c <> d -> forallb (N.eqb d) (repeat c (S k)) = false.
Proof.
  intros N; simpl. replace (d =? c)%N with false; [reflexivity|].
  symmetry; apply N.eqb_neq; congruence.
Qed.

(** C4. With the punctuation statistics on, a line whose stripped content
    is one or more full stops (question marks) adds exactly one to the
    tally of that category and leaves the word counts as they are: it never
    reaches [preprocess_text]; the outcome is the same for one mark and for
    several.  With the statistics off the detector takes no line: every
    line goes to normalization and the tally stays as it is. *)
Theorem punctuation_line_detector (self : analyzer) (st : locals)
  (line_num : nat) (line : str) :
  (enable_punctuation_stats self = true ->
   forall k v,
     (strip line = repeat ch_period (S k) ->
      dict_get name_period (special_counts st) = Some v ->
      process_line self st line_num line
      = Return (tallied name_period v st))
     /\ (strip line = repeat ch_question (S k) ->
         dict_get name_question (special_counts st) = Some v ->
         process_line self st line_num line
         = Return (tallied name_question v st)))
  /\ (forall name v,
        dict_get name (special_counts (tallied name v st)) = Some (v + 1)%Z
        /\ word_freq (tallied name v st) = word_freq st)
  /\ (enable_punctuation_stats self = false ->
      process_line self st line_num line
      = Return (count_words st line_num line)
      /\ special_counts (count_words st line_num line) = special_counts st).
Proof.
  split; [|split].
  - intros He k v; unfold process_line; rewrite He.
    assert (D : ch_period <> ch_question) by (vm_compute; discriminate).
    split; intros Hs Hv; rewrite Hs.
    + assert (C : consume name_period st = Return (tallied name_period v st))
        by (unfold consume, tally_incr; rewrite Hv; reflexivity).
      destruct (str_eqb (repeat ch_period (S k)) [ch_period]); [exact C|].
      rewrite (repeat_not_single k D).
      rewrite (forallb_repeat ch_period (S k)). exact C.
    + assert (C : consume name_question st
                  = Return (tallied name_question v st))
        by (unfold consume, tally_incr; rewrite Hv; reflexivity).
      rewrite (repeat_not_single k (not_eq_sym D)).
      destruct (str_eqb (repeat ch_question (S k)) [ch_question]); [exact C|].
      rewrite (forallb_other k (not_eq_sym D)).
      rewrite (forallb_repeat ch_question (S k)). exact C.
  - intros name v; split; [apply dict_get_set_same | reflexivity].
  - intros He; unfold process_line; rewrite He.
    split; [reflexivity | apply count_words_tally].
Qed.

End Detector.

Lemma punctuation_line_detector_witness :
  process_line (UD := cjk_table) (SG := blank_segmenter)
    sample_analyzer initial_locals 7 (u "。。。" ++ [10%N])
  = Return (tallied name_period 0 initial_locals)
  /\ process_line (UD := cjk_table) (SG := blank_segmenter)
       sample_analyzer initial_locals 7 (u " ？" ++ [10%N])
     = Return (tallied name_question 0 initial_locals)
  /\ process_line (UD := cjk_table) (SG := blank_segmenter)
       quiet_analyzer initial_locals 7 (u "。。。" ++ [10%N])
     = Return (count_words (UD := cjk_table) (SG := blank_segmenter)
                 initial_locals 7 (u "。。。" ++ [10%N])).
Proof.
  split; [|split].
  - apply (proj1 (punctuation_line_detector (UD := cjk_table)
                    (SG := blank_segmenter) sample_analyzer initial_locals 7
                    (u "。。。" ++ [10%N])) eq_refl 2%nat 0%Z);
      vm_compute; reflexivity.
  - apply (proj1 (punctuation_line_detector (UD := cjk_table)
                    (SG := blank_segmenter) sample_analyzer initial_locals 7
                    (u " ？" ++ [10%N])) eq_refl 0%nat 0%Z);
      vm_compute; reflexivity.
  - apply (proj2 (proj2 (punctuation_line_detector (UD := cjk_table)
                    (SG := blank_segmenter) quiet_analyzer initial_locals 7
                    (u "。。。" ++ [10%N]))) eq_refl).
Defined.

Section Analysis.
Context {UD : Unicode} {SG : Segmenter}.


(** C6. [preprocess_text] is idempotent: normalizing a normalized string
    gives the same string, for every input string. *)
Theorem preprocess_text_idempotent (s : str) :
  preprocess_text (preprocess_text s) = preprocess_text s.
Proof.
  set (t := preprocess_text s).
  assert (K : forall c, In c t -> kept c = true)
    by (intros c; apply preprocess_kept).
  unfold preprocess_text at 1.
  rewrite (re_sub_without [] url_nonempty 58%N t url_has_colon).
  2: { intros H; apply K in H; rewrite kept_colon in H; discriminate. }
  rewrite (re_sub_without [] email_nonempty 64%N t email_has_at).
  2: { intros H; apply K in H; rewrite kept_at in H; discriminate. }
  rewrite re_sub_special, (filter_fix _ _ K).
  rewrite (spaces_fix t (preprocess_single_spaced s)).
  apply strip_idem.
Qed.

(** C9. On a file that is read and decoded, [analyze_chat_file] returns,
    and every count of the word table it returns is at least 1. *)
Theorem counts_at_least_one (self : analyzer) (fs : filesystem)
  (file_path : str) (bs : list byte) (text : str) :
  node_at fs file_path = File bs ->
  utf8_decode bs = Some text ->
  exists wf sc,
    analyze_chat_file self fs file_path = Return (wf, sc)
    /\ forall w c, In (w, c) wf -> (1 <= c)%Z.
Proof.
  intros Hn Hd.
  destruct (analyze_readable self fs file_path counted Hn Hd)
    as (wf & sc & E & _ & C).
  - intros w c [].
  - intros st n line Hc; apply count_words_inv; [|exact Hc].
    intros word wf0 _; apply counter_incr_counted.
  - exists wf, sc; split; [exact E | exact C].
Qed.

(** C10. The output of [preprocess_text] holds no left square bracket, so
    no word that the pipeline counts starts with the prefix of the
    pseudo-labels, and the prefix test of [save_results] and
    [generate_wordcloud] drops no counted word: a counted word that is
    ranked is in the vocabulary list.  The segmenter is assumed to return
    pieces made of characters of its input. *)
Theorem real_tokens_never_pseudo
  (Hseg : forall t w x, In w (lcut t) -> In x w -> In x t) :
  (forall s, ~ In 91%N (preprocess_text s))
  /\ (forall self fs file_path wf sc,
        analyze_chat_file self fs file_path = Return (wf, sc) ->
        forall w c,
          In (w, c) wf ->
          startswith pseudo_prefix w = false
          /\ is_reported w = true
          /\ forall self' sc' c',
               In (w, c') (filter_and_sort self' wf sc') ->
               In w (vocabulary (filter_and_sort self' wf sc'))).
Proof.
  split; [intros s; apply preprocess_no_bracket|].
  intros self fs file_path wf sc E w c Hin.
  assert (B : bracket_free wf).
  { apply (analyze_returns self fs file_path bracket_free E).
    - intros w0 c0 [].
    - intros st n line Hb; apply count_words_inv; [|exact Hb].
      intros word wf0 Hw; apply counter_incr_bracket_free.
      intros Hx; apply (extract_words_chars _ _ _ Hseg Hw) in Hx.
      exact (preprocess_no_bracket _ Hx). }
  assert (S : startswith pseudo_prefix w = false).
  { destruct (startswith pseudo_prefix w) eqn:P; [|reflexivity].
    exfalso; apply (B w c Hin), startswith_pseudo_bracket, P. }
  split; [exact S|].
  split; [unfold is_reported; rewrite S; reflexivity|].
  intros self' sc' c' Hr. unfold vocabulary.
  apply in_map_iff; exists (w, c'); split; [reflexivity|].
  apply filter_In; split; [exact Hr|].
  unfold is_reported; cbn [fst]; rewrite S; reflexivity.
Qed.

End Analysis.



Lemma counts_at_least_one_witness :
  exists wf sc,
    analyze_chat_file (UD := cjk_table) (SG := blank_segmenter)
      sample_analyzer (one_file sample_chat) chat_path = Return (wf, sc)
    /\ forall w c, In (w, c) wf -> (1 <= c)%Z.
Proof.
  destruct (utf8_decode sample_chat) as [text|] eqn:D;
    [|vm_compute in D; discriminate].
  apply (counts_at_least_one (UD := cjk_table) (SG := blank_segmenter)
           sample_analyzer (one_file sample_chat) chat_path
           (bs := sample_chat) (text := text));
    [vm_compute; reflexivity | exact D].
Defined.

Lemma real_tokens_never_pseudo_witness :
  ~ In 91%N (preprocess_text (UD := cjk_table) (u "[整行都是句号]"))
  /\ is_reported (u "整行都是句号") = true.
Proof.
  destruct (real_tokens_never_pseudo (UD := cjk_table) (SG := blank_segmenter)
              split_blank_chars) as [H1 H2].
  split; [apply H1|].
  eapply (H2 sample_analyzer (one_file sample_chat) chat_path);
    [vm_compute; reflexivity | right; right; left; reflexivity].
Defined.

(** C7. The claim, that initialization completes for every state of the
    configuration file, fails on the code: when the file is there and
    cannot be opened, [config.read] skips it in silence, no default is
    loaded, and [__init__] raises [NoSectionError] at its first [getint]. *)
Theorem init_raises_on_unopenable_config {IF : IniFormat} :
  path_exists locked_config config_path = true
  /\ fst (load_config locked_config config_path) = []
  /\ fst (init locked_config config_path) = Raise NoSectionError.
Proof.
  assert (Hn : node_at locked_config config_path = Unopenable)
    by (unfold locked_config; cbn [node_at]; rewrite str_eqb_refl;
        reflexivity).
  unfold init, load_config, path_exists, config_read.
  rewrite Hn; simpl.
  repeat split; reflexivity.
Qed.

(** C8. Scenario C: for the table with counts 25 and 19, an empty tally,
    the built-in stopwords and threshold 20 the ranked result is the one
    entry of count 25; and an empty table with no tally at the threshold
    (or with the statistics off) gives the empty list. *)
Theorem scenario_threshold_and_empty :
  (forall cfg flag,
     filter_and_sort {| config := cfg;
                        min_frequency := 20;
                        enable_punctuation_stats := flag;
                        stopwords := default_stopwords |}
                     sample_table []
     = [ (u "你好", 25%Z) ])
  /\ (forall self sc,
        enable_punctuation_stats self = false
        \/ (forall name count,
              In (name, count) sc -> (count < min_frequency self)%Z) ->
        filter_and_sort self [] sc = []).
Proof.
  split.
  - intros cfg [|]; vm_compute; reflexivity.
  - intros self sc H. unfold filter_and_sort, candidates.
    destruct (enable_punctuation_stats self); [|reflexivity].
    destruct H as [H|H]; [discriminate|].
    unfold filter_words; simpl fold_left.
    rewrite (add_special_none self sc H); reflexivity.
Qed.

Lemma scenario_threshold_and_empty_witness :
  filter_and_sort sample_analyzer []
    [ (name_period, 3%Z); (name_question, 0%Z) ] = []
  /\ filter_and_sort quiet_analyzer [] busy_tally = [].
Proof.
  split.
  - apply (proj2 scenario_threshold_and_empty sample_analyzer).
    right; intros name count [E|[E|[]]]; inversion E; simpl; lia.
  - apply (proj2 scenario_threshold_and_empty quiet_analyzer).
    left; reflexivity.
Defined.

(* ================================================================== *)
(** * Scenarios of the specification, run on the stand-ins *)

(** Scenarios A and B: a line of one full stop and a line of three add one
    each to the tally of full stops and no word. *)
Example scenario_full_stops :
  analyze_chat_file (UD := cjk_table) (SG := blank_segmenter) sample_analyzer
    (one_file (list_byte_of_string "。" ++ [x0a]
               ++ list_byte_of_string "。。。" ++ [x0a]))
    chat_path
  = Return ([], [ (name_period, 2%Z); (name_question, 0%Z) ]).
Proof. vm_compute; reflexivity. Qed.

(** Scenario D: a stopword with count 1000 is not ranked, whatever the
    threshold. *)
Example scenario_stopword (threshold : Z) (flag : bool) :
  filter_and_sort {| config := defaults;
                     min_frequency := threshold;
                     enable_punctuation_stats := flag;
                     stopwords := default_stopwords |}
                  [ (u "的", 1000%Z) ] []
  = [].
Proof. destruct flag; reflexivity. Qed.

(** Scenario E: white space, a URL and an e-mail address only. *)
Example scenario_nothing_left :
  analyze_chat_file (UD := cjk_table) (SG := blank_segmenter) sample_analyzer
    (one_file (list_byte_of_string "  https://a.b/c?d=1 " ++ [x0a]
               ++ list_byte_of_string "x@y.z" ++ [x0a]))
    chat_path
  = Return ([], [ (name_period, 0%Z); (name_question, 0%Z) ]).
Proof. vm_compute; reflexivity. Qed.

(** The sample chat log: three lines, one of them taken by the detector;
    the brackets of the last word are gone before it is counted. *)
Example sample_chat_counts :
  analyze_chat_file (UD := cjk_table) (SG := blank_segmenter) sample_analyzer
    (one_file sample_chat) chat_path
  = Return ([ (u "你好", 3%Z); (u "re", 1%Z); (u "整行都是句号", 1%Z) ],
            [ (name_period, 1%Z); (name_question, 0%Z) ]).
Proof. vm_compute; reflexivity. Qed.

(** The configuration file is missing: the defaults are written out. *)
Example missing_config_is_created :
  fst (init (IF := strict_ini) (one_file []) config_path)
  = Return sample_analyzer
  /\ node_at (snd (init (IF := strict_ini) (one_file []) config_path))
             config_path
     = File [].
Proof. vm_compute; split; reflexivity. Qed.

(* ================================================================== *)
(** * The model run on small inputs *)

Example punctuation_literals : u "。？" = [ch_period; ch_question].
Proof. vm_compute; reflexivity. Qed.

Example url_substitution :
  re_sub url_re [] (u "ahttp://x httpss://y https:// z http://")
  = u "a httpss://y https:// z http://".
Proof. vm_compute; reflexivity. Qed.

Example email_substitution :
  re_sub email_re [] (u "a@b @b a@ x@@ q@w@e,r !")
  = u " @b a@   !".
Proof. vm_compute; reflexivity. Qed.

Example normalized_line :
  preprocess_text (UD := cjk_table)
    (u "see https://x.y/z?a=1 now  a@b.c, [hi] 你好！  ")
  = u "see now hi 你好！".
Proof. vm_compute; reflexivity. Qed.

Example stable_sort :
  sorted_desc snd [ (1%nat, 3%Z); (2%nat, 5%Z); (3%nat, 3%Z); (4%nat, 5%Z);
                    (5%nat, 1%Z) ]
  = [ (2%nat, 5%Z); (4%nat, 5%Z); (1%nat, 3%Z); (3%nat, 3%Z); (5%nat, 1%Z) ].
Proof. reflexivity. Qed.

Example lines_keep_terminators :
  lines_of (translate_newlines [97; 13; 10; 98; 13; 99; 10; 10; 100]%N)
  = [ [97; 10]; [98; 10]; [99; 10]; [10]; [100] ]%N.
Proof. reflexivity. Qed.

(* ================================================================== *)
(** * Further facts: what the loop of [analyze_chat_file] computes *)

Lemma mem_spec (k : str) (l : list str) : mem k l = true <-> In k l.
Proof.
  unfold mem; rewrite existsb_exists; split.
  - intros (x & Hx & E); apply str_eqb_spec in E; subst; exact Hx.
  - intros H; exists k; split; [exact H | apply str_eqb_refl].
Qed.

Lemma mem_false (k : str) (l : list str) : mem k l = false <-> ~ In k l.
Proof.
  rewrite <- mem_spec; destruct (mem k l); split; congruence.
Qed.

Lemma str_eqb_sym (a b : str) : str_eqb a b = str_eqb b a.
Proof.
  destruct (str_eqb a b) eqn:E.
  - apply str_eqb_spec in E; subst; symmetry; apply str_eqb_refl.
  - destruct (str_eqb b a) eqn:E'; [|reflexivity].
    apply str_eqb_spec in E'; subst; rewrite str_eqb_refl in E; discriminate.
Qed.

Lemma keys_dict_set {V} (k : str) (v : V) (d : dict V) :
  keys (dict_set k v d) = if mem k (keys d) then keys d else keys d ++ [k].
Proof.
  unfold keys, mem; induction d as [|[k' v'] t IH]; simpl; [reflexivity|].
  destruct (str_eqb k k'); simpl; [reflexivity|].
  rewrite IH; destruct (existsb (str_eqb k) (map fst t)); reflexivity.
Qed.

Lemma dict_set_nodup {V} (k : str) (v : V) (d : dict V) :
  NoDup (keys d) -> NoDup (keys (dict_set k v d)).
Proof.
  intros ND; rewrite keys_dict_set.
  destruct (mem k (keys d)) eqn:E; [exact ND|].
  apply mem_false in E.
  apply NoDup_rev in ND. rewrite <- (rev_involutive (keys d ++ [k])).
  apply NoDup_rev. rewrite rev_app_distr; simpl.
  constructor; [rewrite <- in_rev; exact E | exact ND].
Qed.

(** The detector of the source, four tests in a row, takes the lines that
    [classify] names. *)
Lemma process_line_classify {UD : Unicode} {SG : Segmenter}
  (self : analyzer) (st : locals) (n : nat) (line : str) :
  process_line self st n line
  = match classify self line with
    | Some name => consume name st
    | None => Return (count_words st n line)
    end.
Proof.
  unfold process_line, classify.
  destruct (enable_punctuation_stats self); [|reflexivity].
  assert (L : forall s : str,
             (0 <? List.length s)%nat = negb (str_eqb s []))
    by (intros [|c t]; reflexivity).
  destruct (str_eqb (strip line) [ch_period]) eqn:A.
  - apply str_eqb_spec in A; rewrite A; reflexivity.
  - destruct (str_eqb (strip line) [ch_question]) eqn:B.
    + apply str_eqb_spec in B; rewrite B; reflexivity.
    + rewrite !L, (andb_comm (forallb (N.eqb ch_period) (strip line))),
        (andb_comm (forallb (N.eqb ch_question) (strip line))).
      destruct (negb (str_eqb (strip line) [])
                && forallb (N.eqb ch_period) (strip line)); [reflexivity|].
      destruct (negb (str_eqb (strip line) [])
                && forallb (N.eqb ch_question) (strip line)); reflexivity.
Qed.

Lemma classify_names (self : analyzer) (line name : str) :
  classify self line = Some name -> name = name_period \/ name = name_question.
Proof.
  unfold classify. destruct (enable_punctuation_stats self); [|discriminate].
  repeat match goal with
         | |- context [if ?b then _ else _] => destruct b
         end; intros H; inversion H; auto.
Qed.

Lemma get_counter_incr (w x : str) (d : dict Z) :
  dict_get x (counter_incr w d)
  = if str_eqb x w then Some (count_of w d + 1)%Z else dict_get x d.
Proof.
  unfold counter_incr, count_of.
  destruct (str_eqb x w) eqn:E.
  - apply str_eqb_spec in E; subst; apply dict_get_set_same.
  - apply dict_get_set_other; intros ->; rewrite str_eqb_refl in E.
    discriminate.
Qed.

Lemma occurrences_cons (x w : str) (l : list str) :
  occurrences x (w :: l)
  = ((if str_eqb x w then 1 else 0) + occurrences x l)%nat.
Proof. unfold occurrences; simpl; destruct (str_eqb x w); reflexivity. Qed.

(** The counts after a run of increments. *)
Lemma fold_counts (l : list str) : forall (d : dict Z) (x : str),
  dict_get x (fold_left (fun wf w => counter_incr w wf) l d)
  = match occurrences x l with
    | O => dict_get x d
    | S _ => Some (count_of x d + Z.of_nat (occurrences x l))%Z
    end.
Proof.
  induction l as [|w t IH]; intros d x; [reflexivity|].
  cbn [fold_left]; rewrite IH, occurrences_cons.
  unfold count_of at 1; rewrite !get_counter_incr.
  destruct (str_eqb x w) eqn:E.
  - apply str_eqb_spec in E; subst w.
    destruct (occurrences x t) as [|m]; cbn [Nat.add].
    + f_equal; lia.
    + f_equal; lia.
  - cbn [Nat.add]. reflexivity.
Qed.

Lemma filter_ext_in_bool {A} (f g : A -> bool) (l : list A) :
  (forall x, In x l -> f x = g x) -> filter f l = filter g l.
Proof.
  induction l as [|x l IH]; simpl; intros H; [reflexivity|].
  rewrite (H x (or_introl eq_refl)), IH; auto.
Qed.

(** The keys after a run of increments: the old ones, then the new words
    in the order of their first occurrence. *)
Lemma fold_keys (l : list str) : forall (d : dict Z),
  keys (fold_left (fun wf w => counter_incr w wf) l d)
  = keys d ++ filter (fun x => negb (mem x (keys d))) (first_seen l).
Proof.
  induction l as [|w t IH]; intros d; [simpl; rewrite app_nil_r; reflexivity|].
  cbn [fold_left first_seen filter]; rewrite IH.
  unfold counter_incr; rewrite keys_dict_set.
  rewrite filter_filter.
  destruct (mem w (keys d)) eqn:E; cbn [negb].
  - f_equal. apply filter_ext_in_bool; intros x _.
    destruct (str_eqb w x) eqn:Ex; [|reflexivity].
    apply str_eqb_spec in Ex; subst x; rewrite E; reflexivity.
  - rewrite <- app_assoc; cbn [app]. do 2 f_equal.
    apply filter_ext_in_bool; intros x _.
    unfold mem; rewrite existsb_app; simpl.
    rewrite orb_false_r, negb_orb, (str_eqb_sym x w), andb_comm.
    reflexivity.
Qed.

Lemma first_seen_in (l : list str) (x : str) : In x (first_seen l) <-> In x l.
Proof.
  induction l as [|w t IH]; simpl; [tauto|].
  rewrite filter_In, IH. split.
  - tauto.
  - intros [->|H]; [auto|].
    destruct (str_eqb w x) eqn:E; [apply str_eqb_spec in E; auto|].
    right; split; auto.
Qed.

Lemma first_seen_nodup (l : list str) : NoDup (first_seen l).
Proof.
  induction l as [|w t IH]; simpl; constructor.
  - rewrite filter_In, str_eqb_refl; intros [_ H]; discriminate.
  - apply NoDup_filter, IH.
Qed.

Lemma occurrences_pos (x : str) (l : list str) :
  In x l -> exists m, occurrences x l = S m.
Proof.
  induction l as [|w t IH]; [intros []|].
  rewrite occurrences_cons; intros [->|H].
  - rewrite str_eqb_refl; eauto.
  - destruct (IH H) as [m ->].
    destruct (str_eqb x w); simpl; eauto.
Qed.

(** A dictionary with distinct keys is its keys with their values. *)
Lemma dict_by_keys {V} (f : str -> V) (d : dict V) :
  NoDup (keys d) ->
  (forall k, In k (keys d) -> dict_get k d = Some (f k)) ->
  d = map (fun k => (k, f k)) (keys d).
Proof.
  unfold keys; induction d as [|[k v] t IH]; intros ND H; [reflexivity|].
  simpl in ND; inversion ND as [|? ? Hk ND']; subst.
  simpl; f_equal.
  - specialize (H k (or_introl eq_refl)); simpl in H.
    rewrite str_eqb_refl in H; inversion H; reflexivity.
  - apply IH; [exact ND'|].
    intros k' Hk'. specialize (H k' (or_intror Hk')); simpl in H.
    rewrite str_eqb_neq in H; [exact H|].
    intros ->; exact (Hk Hk').
Qed.

(** Counting from the empty table gives the table of the words. *)
Lemma fold_table (l : list str) :
  fold_left (fun wf w => counter_incr w wf) l [] = table_of l.
Proof.
  set (d := fold_left (fun wf w => counter_incr w wf) l []).
  assert (K : keys d = first_seen l).
  { unfold d; rewrite fold_keys; simpl.
    apply filter_fix; reflexivity. }
  unfold table_of; rewrite <- K.
  apply dict_by_keys.
  - rewrite K; apply first_seen_nodup.
  - intros k Hk; rewrite K in Hk; apply (proj1 (first_seen_in l k)) in Hk.
    unfold d; rewrite fold_counts.
    destruct (occurrences_pos _ _ Hk) as [m ->].
    reflexivity.
Qed.

Lemma lines_in_cons (self : analyzer) (name line : str) (lines : list str) :
  lines_in self name (line :: lines)
  = ((match classify self line with
      | Some n => if str_eqb n name then 1 else 0
      | None => 0
      end) + lines_in self name lines)%nat.
Proof.
  unfold lines_in; simpl.
  destruct (classify self line) as [n|]; [|reflexivity].
  destruct (str_eqb n name); reflexivity.
Qed.

Lemma lines_in_disabled (self : analyzer) (name : str) (lines : list str) :
  enable_punctuation_stats self = false -> lines_in self name lines = 0%nat.
Proof.
  intros H; induction lines as [|line lines IH]; [reflexivity|].
  rewrite lines_in_cons, IH. unfold classify; rewrite H; reflexivity.
Qed.

(** No line is counted in both categories. *)
Lemma lines_in_bound (self : analyzer) (lines : list str) :
  (lines_in self name_period lines + lines_in self name_question lines
   <= List.length lines)%nat.
Proof.
  induction lines as [|line lines IH]; [unfold lines_in; simpl; lia|].
  rewrite !lines_in_cons; cbn [List.length].
  destruct (classify self line) as [n|] eqn:C; [|lia].
  destruct (classify_names _ _ C) as [-> | ->].
  - replace (str_eqb name_period name_period) with true by reflexivity.
    replace (str_eqb name_period name_question) with false by reflexivity.
    lia.
  - replace (str_eqb name_question name_period) with false by reflexivity.
    replace (str_eqb name_question name_question) with true by reflexivity.
    lia.
Qed.

Section LoopValue.
Context {UD : Unicode} {SG : Segmenter}.

Lemma count_words_tokens self st n line :
  classify self line = None ->
  word_freq (count_words st n line)
  = fold_left (fun wf w => counter_incr w wf) (line_tokens self line)
              (word_freq st).
Proof.
  intros C; unfold count_words, line_tokens; rewrite C.
  destruct (preprocess_text line); reflexivity.
Qed.

Lemma consume_period_value st a b :
  special_counts st = [(name_period, a); (name_question, b)] ->
  consume name_period st
  = Return {| word_freq := word_freq st;
              special_counts := [(name_period, (a + 1)%Z); (name_question, b)];
              total_lines := total_lines st |}.
Proof. intros H; unfold consume, tally_incr; rewrite H; reflexivity. Qed.

Lemma consume_question_value st a b :
  special_counts st = [(name_period, a); (name_question, b)] ->
  consume name_question st
  = Return {| word_freq := word_freq st;
              special_counts := [(name_period, a); (name_question, (b + 1)%Z)];
              total_lines := total_lines st |}.
Proof. intros H; unfold consume, tally_incr; rewrite H; reflexivity. Qed.

(** The loop returns, with the words of the lines counted into the table
    and the lines of each category counted into the tally. *)
Lemma for_lines_value self : forall lines n st a b,
  special_counts st = [(name_period, a); (name_question, b)] ->
  exists st',
    for_lines self n lines st = Return st'
    /\ word_freq st'
       = fold_left (fun wf w => counter_incr w wf) (file_tokens self lines)
                   (word_freq st)
    /\ special_counts st'
       = [ (name_period,
            (a + Z.of_nat (lines_in self name_period lines))%Z);
           (name_question,
            (b + Z.of_nat (lines_in self name_question lines))%Z) ].
Proof.
  induction lines as [|line lines IH]; intros n st a b Hs.
  - exists st; simpl. rewrite Hs, !Z.add_0_r; auto.
  - cbn [for_lines]. rewrite process_line_classify, !lines_in_cons.
    unfold file_tokens; cbn [flat_map]; fold (file_tokens self lines).
    unfold line_tokens at 1.
    destruct (classify self line) as [name|] eqn:C.
    + destruct (classify_names _ _ C) as [-> | ->].
      * rewrite (consume_period_value _ Hs); cbn [bind].
        destruct (IH (S n)
                    {| word_freq := word_freq st;
                       special_counts :=
                         [(name_period, (a + 1)%Z); (name_question, b)];
                       total_lines := total_lines st |}
                    (a + 1)%Z b eq_refl) as (st' & E & W & T).
        exists st'; split; [exact E|]; split; [exact W|].
        rewrite T.
        replace (str_eqb name_period name_period) with true by reflexivity.
        replace (str_eqb name_period name_question) with false by reflexivity.
        replace (a + Z.of_nat (1 + lines_in self name_period lines))%Z
          with (a + 1 + Z.of_nat (lines_in self name_period lines))%Z by lia.
        reflexivity.
      * rewrite (consume_question_value _ Hs); cbn [bind].
        destruct (IH (S n)
                    {| word_freq := word_freq st;
                       special_counts :=
                         [(name_period, a); (name_question, (b + 1)%Z)];
                       total_lines := total_lines st |}
                    a (b + 1)%Z eq_refl) as (st' & E & W & T).
        exists st'; split; [exact E|]; split; [exact W|].
        rewrite T.
        replace (str_eqb name_question name_period) with false by reflexivity.
        replace (str_eqb name_question name_question) with true by reflexivity.
        replace (b + Z.of_nat (1 + lines_in self name_question lines))%Z
          with (b + 1 + Z.of_nat (lines_in self name_question lines))%Z by lia.
        reflexivity.
    + cbn [bind].
      destruct (IH (S n) (count_words st n line) a b) as (st' & E & W & T).
      { rewrite count_words_tally; exact Hs. }
      exists st'; split; [exact E|]; split; [|exact T].
      rewrite W, (@count_words_tokens self st n line C), fold_left_app.
      unfold line_tokens; rewrite C; reflexivity.
Qed.

(** The value of [analyze_chat_file] on a file that opens and decodes. *)
Lemma analyze_value self fs file_path bs text :
  node_at fs file_path = File bs -> utf8_decode bs = Some text ->
  analyze_chat_file self fs file_path
  = Return
      (table_of (file_tokens self (lines_of (translate_newlines text))),
       [ (name_period,
          Z.of_nat (lines_in self name_period
                             (lines_of (translate_newlines text))));
         (name_question,
          Z.of_nat (lines_in self name_question
                             (lines_of (translate_newlines text)))) ]).
Proof.
  intros Hn Hd. unfold analyze_chat_file, open_read; rewrite Hn, Hd.
  cbn [bind].
  destruct (for_lines_value self (lines_of (translate_newlines text)) 1
              initial_locals (a := 0%Z) (b := 0%Z) eq_refl)
    as (st' & -> & W & T).
  cbn [bind]. rewrite W, T, fold_table. reflexivity.
Qed.

(** X1. On a file that opens and decodes, the word table that
    [analyze_chat_file] returns holds every word that [extract_words] gave
    for a line the detector left alone, once, with the number of its
    occurrences, in the order of first occurrence, and nothing else. *)
Theorem word_table_counts_tokens (self : analyzer) (fs : filesystem)
  (file_path : str) (bs : list byte) (text : str) :
  node_at fs file_path = File bs ->
  utf8_decode bs = Some text ->
  exists sc,
    analyze_chat_file self fs file_path
    = Return
        (table_of (file_tokens self (lines_of (translate_newlines text))),
         sc).
Proof.
  intros Hn Hd; rewrite (analyze_value self fs file_path Hn Hd).
  eexists; reflexivity.
Qed.

(** X2. On a file that opens and decodes, the tally that
    [analyze_chat_file] returns has the two categories in the order of the
    source, each with the number of lines the detector took for it; no
    line counts twice, and with the statistics off both counts are 0. *)
Theorem tally_counts_lines (self : analyzer) (fs : filesystem)
  (file_path : str) (bs : list byte) (text : str) :
  node_at fs file_path = File bs ->
  utf8_decode bs = Some text ->
  let lines := lines_of (translate_newlines text) in
  (exists wf,
     analyze_chat_file self fs file_path
     = Return (wf, [ (name_period,
                      Z.of_nat (lines_in self name_period lines));
                     (name_question,
                      Z.of_nat (lines_in self name_question lines)) ]))
  /\ (lines_in self name_period lines + lines_in self name_question lines
      <= List.length lines)%nat
  /\ (enable_punctuation_stats self = false ->
      lines_in self name_period lines = 0%nat
      /\ lines_in self name_question lines = 0%nat).
Proof.
  intros Hn Hd lines. split; [|split].
  - rewrite (analyze_value self fs file_path Hn Hd). eexists; reflexivity.
  - apply lines_in_bound.
  - intros H; split; apply lines_in_disabled, H.
Qed.

(** Where there is no file to open, [analyze_chat_file] ends with the
    exception of [open], unless a handler catches it. *)
Lemma analyze_unopened self fs file_path :
  (forall bs, node_at fs file_path <> File bs) ->
  analyze_chat_file self fs file_path
  = match open_error fs file_path with
    | FileNotFoundError => Return ([], [])
    | UnicodeDecodeError => Return ([], [])
    | e => Raise e
    end.
Proof.
  intros Hn. unfold analyze_chat_file, open_read.
  destruct (node_at fs file_path) as [| |bs];
    [| |destruct (Hn bs); reflexivity];
    destruct (open_error fs file_path); reflexivity.
Qed.


End LoopValue.

Lemma word_table_counts_tokens_witness :
  exists text sc,
    utf8_decode sample_chat = Some text
    /\ analyze_chat_file (UD := cjk_table) (SG := blank_segmenter)
         sample_analyzer (one_file sample_chat) chat_path
       = Return
           (table_of
              (file_tokens (UD := cjk_table) (SG := blank_segmenter)
                 sample_analyzer (lines_of (translate_newlines text))),
            sc).
Proof.
  destruct (utf8_decode sample_chat) as [text|] eqn:D;
    [|vm_compute in D; discriminate].
  assert (Hn : node_at (one_file sample_chat) chat_path = File sample_chat)
    by (vm_compute; reflexivity).
  destruct (word_table_counts_tokens (UD := cjk_table)
              (SG := blank_segmenter) sample_analyzer
              (one_file sample_chat) chat_path Hn D) as [sc E].
  exists text, sc; split; [reflexivity | exact E].
Defined.

Lemma tally_counts_lines_witness :
  exists text wf,
    utf8_decode sample_chat = Some text
    /\ analyze_chat_file (UD := cjk_table) (SG := blank_segmenter)
         quiet_analyzer (one_file sample_chat) chat_path
       = Return (wf, [ (name_period, 0%Z); (name_question, 0%Z) ]).
Proof.
  destruct (utf8_decode sample_chat) as [text|] eqn:D;
    [|vm_compute in D; discriminate].
  assert (Hn : node_at (one_file sample_chat) chat_path = File sample_chat)
    by (vm_compute; reflexivity).
  destruct (tally_counts_lines (UD := cjk_table) (SG := blank_segmenter)
              quiet_analyzer (one_file sample_chat) chat_path Hn D)
    as ([wf E] & _ & Z).
  destruct (Z eq_refl) as [Zp Zq]. rewrite Zp, Zq in E.
  exists text, wf; split; [reflexivity | exact E].
Defined.


(* ================================================================== *)
(** * Further facts: the ranked result *)

Lemma filter_words_keys_nodup self wf : NoDup (keys (filter_words self wf)).
Proof.
  unfold filter_words.
  apply (fold_left_inv _ (fun acc => NoDup (keys acc))); [constructor|].
  intros acc [w f] _ ND.
  destruct (negb (mem w (stopwords self)) && (min_frequency self <=? f)%Z);
    [apply dict_set_nodup, ND | exact ND].
Qed.

Lemma add_special_keys_nodup self sc d :
  NoDup (keys d) -> NoDup (keys (add_special self sc d)).
Proof.
  intros ND0. unfold add_special.
  apply (fold_left_inv _ (fun acc => NoDup (keys acc))); [exact ND0|].
  intros acc [n c] _ ND.
  destruct (min_frequency self <=? c)%Z;
    [apply dict_set_nodup, ND | exact ND].
Qed.

Lemma candidates_keys_nodup self wf sc : NoDup (keys (candidates self wf sc)).
Proof.
  unfold candidates. destruct (enable_punctuation_stats self).
  - apply add_special_keys_nodup, filter_words_keys_nodup.
  - apply filter_words_keys_nodup.
Qed.

Lemma ranked_keys_perm self wf sc :
  Permutation (keys (candidates self wf sc))
              (keys (filter_and_sort self wf sc)).
Proof. unfold keys, filter_and_sort; apply Permutation_map, sorted_desc_perm. Qed.

(** X4. No label stands twice in the list that [filter_and_sort] returns,
    whatever the table, the tally and the analyzer: a pseudo-label that is
    also a word of the table replaces it. *)
Theorem ranked_labels_distinct (self : analyzer) (wf sc : dict Z) :
  NoDup (keys (filter_and_sort self wf sc)).
Proof.
  eapply Permutation_NoDup; [apply ranked_keys_perm|].
  apply candidates_keys_nodup.
Qed.

(** What [filtered_freq] is when no pseudo-label meets a word. *)
Lemma candidates_fresh (self : analyzer) (wf sc : dict Z) :
  NoDup (keys wf) -> NoDup (keys sc) ->
  (forall name, In name (keys sc) -> ~ In (display_name name) (keys wf)) ->
  candidates self wf sc
  = filter (keeps self) wf
    ++ (if enable_punctuation_stats self then pseudo_entries self sc else []).
Proof.
  intros NDw NDs Hd.
  unfold candidates; rewrite (filter_words_nodup self _ NDw).
  destruct (enable_punctuation_stats self); [|rewrite app_nil_r; reflexivity].
  apply add_special_fresh; [exact NDs|].
  intros name Hname H. apply (Hd name Hname).
  unfold keys in *; apply in_map_iff in H as (e & E & He).
  apply filter_In in He as [He _].
  apply in_map_iff; exists e; auto.
Qed.

Lemma ranking_keeps_table_order_witness :
  filter (fun e => (snd e =? 25)%Z)
         (filter_and_sort sample_analyzer busy_table busy_tally)
  = [ (u "你好", 25%Z); (u "再见", 25%Z) ].
Proof.
  rewrite (ranking_keeps_table_order sample_analyzer busy_table busy_tally).
  - vm_compute; reflexivity.
  - vm_compute; repeat (constructor; [simpl; intuition discriminate|]).
    constructor.
  - vm_compute; repeat (constructor; [simpl; intuition discriminate|]).
    constructor.
  - intros name [<-|[<-|[]]]; vm_compute; intuition discriminate.
Defined.

Lemma startswith_app (p s : str) : startswith p (p ++ s) = true.
Proof.
  induction p as [|c p IH]; [reflexivity|].
  simpl; rewrite N.eqb_refl; exact IH.
Qed.

Lemma display_name_pseudo (name : str) :
  startswith pseudo_prefix (display_name name) = true.
Proof. unfold display_name; apply startswith_app. Qed.

Lemma display_name_bracket (name : str) : In 91%N (display_name name).
Proof. apply startswith_pseudo_bracket, display_name_pseudo. Qed.

Lemma keys_table_of (l : list str) : keys (table_of l) = first_seen l.
Proof.
  unfold keys, table_of; rewrite map_map; simpl; apply map_id.
Qed.

(** Filtering commutes with the stable sort. *)
Lemma insert_desc_front {A} (key : A -> Z) (x : A) (l : list A) :
  (forall z, In z l -> (key z <= key x)%Z) -> insert_desc key x l = x :: l.
Proof.
  destruct l as [|y t]; [reflexivity|]; intros H; simpl.
  replace (key y <=? key x)%Z with true; [reflexivity|].
  symmetry; apply Z.leb_le, H; left; reflexivity.
Qed.

Lemma filter_insert_desc {A} (key : A -> Z) (f : A -> bool) (x : A) :
  forall l, StronglySorted (descending key) l ->
  filter f (insert_desc key x l)
  = if f x then insert_desc key x (filter f l) else filter f l.
Proof.
  induction l as [|y t IH]; intros S.
  - simpl; destruct (f x); reflexivity.
  - inversion S as [|? ? St Hy]; subst.
    cbn [insert_desc]. destruct (key y <=? key x)%Z eqn:E.
    + change (filter f (x :: y :: t))
        with (if f x then x :: filter f (y :: t) else filter f (y :: t)).
      rewrite (insert_desc_front key x (filter f (y :: t))); [reflexivity|].
      intros z Hz; apply filter_In in Hz as [Hz _].
      apply Z.leb_le in E.
      destruct Hz as [<-|Hz]; [exact E|].
      rewrite Forall_forall in Hy; specialize (Hy z Hz).
      unfold descending in Hy; lia.
    + change (filter f (y :: insert_desc key x t))
        with (if f y then y :: filter f (insert_desc key x t)
              else filter f (insert_desc key x t)).
      change (filter f (y :: t))
        with (if f y then y :: filter f t else filter f t).
      rewrite (IH St).
      destruct (f y), (f x); cbn [insert_desc]; try rewrite E; reflexivity.
Qed.

Lemma filter_sorted_desc {A} (key : A -> Z) (f : A -> bool) (l : list A) :
  filter f (sorted_desc key l) = sorted_desc key (filter f l).
Proof.
  induction l as [|x l IH]; [reflexivity|].
  simpl sorted_desc.
  rewrite filter_insert_desc by apply sorted_desc_sorted.
  cbn [filter]. destruct (f x); rewrite IH; reflexivity.
Qed.

(** The fold of [generate_wordcloud] on a list of distinct labels is a
    filter. *)
Lemma cloud_fold (l : list (str * Z)) : forall acc,
  NoDup (keys l) -> (forall k, In k (keys l) -> ~ In k (keys acc)) ->
  fold_left
    (fun word_freq '(word, freq) =>
       if negb (startswith pseudo_prefix word)
       then dict_set word freq word_freq
       else word_freq) l acc
  = acc ++ filter (fun e => is_reported (fst e)) l.
Proof.
  induction l as [|[w f] l IH]; intros acc ND Hd.
  - simpl; rewrite app_nil_r; reflexivity.
  - simpl in ND; inversion ND as [|? ? Hw ND']; subst.
    cbn [fold_left filter fst]. unfold is_reported at 1.
    destruct (negb (startswith pseudo_prefix w)).
    + rewrite dict_set_fresh by (apply Hd; left; reflexivity).
      rewrite IH; [rewrite <- app_assoc; reflexivity | exact ND' |].
      intros k Hk; unfold keys; rewrite map_app, in_app_iff; simpl.
      intros [H|[<-|[]]]; [apply (Hd k); [right|]; assumption | exact (Hw Hk)].
    + apply IH; [exact ND'|]. intros k Hk; apply Hd; right; exact Hk.
Qed.

(** X6. The frequencies that [generate_wordcloud] hands to the renderer
    are the entries of the ranked result that are not pseudo-labels, in
    rank order, none overwritten; so the early return "not enough data"
    is taken exactly when every ranked label is a pseudo-label. *)
Theorem cloud_takes_reported_entries (self : analyzer) (wf sc : dict Z) :
  cloud_frequencies (filter_and_sort self wf sc)
  = filter (fun e => is_reported (fst e)) (filter_and_sort self wf sc)
  /\ (cloud_frequencies (filter_and_sort self wf sc) = []
      <-> forall label count,
            In (label, count) (filter_and_sort self wf sc) ->
            startswith pseudo_prefix label = true).
Proof.
  assert (E : cloud_frequencies (filter_and_sort self wf sc)
              = filter (fun e => is_reported (fst e))
                       (filter_and_sort self wf sc)).
  { unfold cloud_frequencies.
    rewrite cloud_fold; [reflexivity | | intros k _ []].
    eapply Permutation_NoDup; [apply ranked_keys_perm|].
    apply candidates_keys_nodup. }
  split; [exact E|]. rewrite E. split.
  - intros H label count Hin.
    destruct (startswith pseudo_prefix label) eqn:S; [reflexivity|].
    assert (K : In (label, count)
                   (filter (fun e => is_reported (fst e))
                           (filter_and_sort self wf sc)))
      by (apply filter_In; split; [exact Hin|];
          unfold is_reported; cbn [fst]; rewrite S; reflexivity).
    rewrite H in K; destruct K.
  - intros H.
    destruct (filter (fun e => is_reported (fst e))
                     (filter_and_sort self wf sc)) as [|[l c] r] eqn:F;
      [reflexivity|].
    assert (K : In (l, c) (filter (fun e => is_reported (fst e))
                                  (filter_and_sort self wf sc)))
      by (rewrite F; left; reflexivity).
    apply filter_In in K as [Hin R].
    unfold is_reported in R; cbn [fst] in R.
    rewrite (H l c Hin) in R; discriminate.
Qed.

Section PipelineRanking.
Context {UD : Unicode} {SG : Segmenter}.

(** The shape of what [analyze_chat_file] returns. *)
Lemma analyze_shape self fs file_path wf sc :
  (forall t w x, In w (lcut t) -> In x w -> In x t) ->
  analyze_chat_file self fs file_path = Return (wf, sc) ->
  NoDup (keys wf) /\ bracket_free wf /\ NoDup (keys sc).
Proof.
  intros Hseg E. split; [|split].
  - apply (analyze_returns self fs file_path (fun d => NoDup (keys d)) E);
      [constructor|].
    intros st n line ND; apply count_words_inv; [|exact ND].
    intros word d _ NDd; unfold counter_incr; apply dict_set_nodup, NDd.
  - apply (analyze_returns self fs file_path bracket_free E).
    + intros w0 c0 [].
    + intros st n line Hb; apply count_words_inv; [|exact Hb].
      intros word wf0 Hw; apply counter_incr_bracket_free.
      intros Hx; apply (extract_words_chars _ _ _ Hseg Hw) in Hx.
      exact (preprocess_no_bracket _ Hx).
  - destruct (node_at fs file_path) as [| |bs] eqn:Hn.
    + rewrite analyze_unopened in E by (rewrite Hn; discriminate).
      destruct (open_error fs file_path); inversion E; constructor.
    + rewrite analyze_unopened in E by (rewrite Hn; discriminate).
      destruct (open_error fs file_path); inversion E; constructor.
    + destruct (utf8_decode bs) as [text|] eqn:Hd.
      * rewrite (analyze_value self fs file_path Hn Hd) in E.
        inversion E; subst. unfold keys; simpl.
        constructor; [|constructor; [intros []|constructor]].
        intros [H|[]]; exact (names_differ H).
      * unfold analyze_chat_file, open_read in E; rewrite Hn, Hd in E.
        inversion E; constructor.
Qed.

Lemma pipeline_candidates self fs file_path wf sc self' :
  (forall t w x, In w (lcut t) -> In x w -> In x t) ->
  analyze_chat_file self fs file_path = Return (wf, sc) ->
  candidates self' wf sc
  = filter (keeps self') wf
    ++ (if enable_punctuation_stats self' then pseudo_entries self' sc
        else []).
Proof.
  intros Hseg E.
  destruct (analyze_shape self fs file_path Hseg E) as (NDw & B & NDs).
  apply candidates_fresh; [exact NDw | exact NDs|].
  intros name _ H. unfold keys in H; apply in_map_iff in H as ([w c] & Ew & H).
  simpl in Ew; subst w. exact (B _ _ H (display_name_bracket name)).
Qed.

(** X7. For a table and a tally that [analyze_chat_file] returned, no
    pseudo-label meets a counted word: the ranked result is the stable
    descending sort of the words that pass the two tests, in the order of
    the table, followed by the pseudo-labels of the categories at the
    threshold, in the order of the tally.  The segmenter is assumed to
    return pieces made of characters of its input. *)
Theorem pipeline_ranking (self : analyzer) (fs : filesystem)
  (file_path : str) (wf sc : dict Z) (self' : analyzer) :
  (forall t w x, In w (lcut t) -> In x w -> In x t) ->
  analyze_chat_file self fs file_path = Return (wf, sc) ->
  filter_and_sort self' wf sc
  = sorted_desc snd
      (filter (keeps self') wf
       ++ (if enable_punctuation_stats self' then pseudo_entries self' sc
           else [])).
Proof.
  intros Hseg E. unfold filter_and_sort.
  rewrite (pipeline_candidates self fs file_path self' Hseg E).
  reflexivity.
Qed.

Lemma pseudo_entries_hidden self sc :
  filter (fun e => is_reported (fst e)) (pseudo_entries self sc) = [].
Proof.
  unfold pseudo_entries.
  induction (filter (fun e => (min_frequency self <=? snd e)%Z) sc)
    as [|[n c] l IH]; [reflexivity|].
  cbn [map filter fst]. unfold is_reported at 1.
  rewrite display_name_pseudo; exact IH.
Qed.

(** X8. For a table and a tally that [analyze_chat_file] returned, the
    vocabulary list of [save_results] is the words of the table that pass
    the two tests, in rank order: the prefix test drops the pseudo-labels
    and nothing else.  Same assumption on the segmenter. *)
Theorem pipeline_vocabulary (self : analyzer) (fs : filesystem)
  (file_path : str) (wf sc : dict Z) (self' : analyzer) :
  (forall t w x, In w (lcut t) -> In x w -> In x t) ->
  analyze_chat_file self fs file_path = Return (wf, sc) ->
  vocabulary (filter_and_sort self' wf sc)
  = map fst (sorted_desc snd (filter (keeps self') wf)).
Proof.
  intros Hseg E. unfold vocabulary, filter_and_sort.
  rewrite (pipeline_candidates self fs file_path self' Hseg E).
  rewrite filter_sorted_desc, filter_app.
  destruct (analyze_shape self fs file_path Hseg E) as (_ & B & _).
  assert (R : filter (fun e => is_reported (fst e)) (filter (keeps self') wf)
              = filter (keeps self') wf).
  { apply filter_fix; intros [w c] H. apply filter_In in H as [H _].
    unfold is_reported; cbn [fst].
    destruct (startswith pseudo_prefix w) eqn:S; [|reflexivity].
    exfalso; exact (B _ _ H (startswith_pseudo_bracket _ S)). }
  rewrite R.
  destruct (enable_punctuation_stats self');
    [rewrite pseudo_entries_hidden|]; rewrite app_nil_r; reflexivity.
Qed.

End PipelineRanking.

Lemma pipeline_ranking_witness :
  exists wf sc,
    analyze_chat_file (UD := cjk_table) (SG := blank_segmenter)
      sample_analyzer (one_file sample_chat) chat_path = Return (wf, sc)
    /\ filter_and_sort quiet_analyzer wf sc
       = sorted_desc snd (filter (keeps quiet_analyzer) wf ++ []).
Proof.
  destruct (analyze_chat_file (UD := cjk_table) (SG := blank_segmenter)
              sample_analyzer (one_file sample_chat) chat_path)
    as [[wf sc]|e] eqn:E; [|vm_compute in E; discriminate].
  exists wf, sc; split; [reflexivity|].
  exact (pipeline_ranking (UD := cjk_table) (SG := blank_segmenter)
           sample_analyzer (one_file sample_chat) chat_path quiet_analyzer
           split_blank_chars E).
Defined.

Lemma pipeline_vocabulary_witness :
  exists wf sc,
    analyze_chat_file (UD := cjk_table) (SG := blank_segmenter)
      sample_analyzer (one_file sample_chat) chat_path = Return (wf, sc)
    /\ vocabulary (filter_and_sort sample_analyzer wf sc)
       = map fst (sorted_desc snd (filter (keeps sample_analyzer) wf)).
Proof.
  destruct (analyze_chat_file (UD := cjk_table) (SG := blank_segmenter)
              sample_analyzer (one_file sample_chat) chat_path)
    as [[wf sc]|e] eqn:E; [|vm_compute in E; discriminate].
  exists wf, sc; split; [reflexivity|].
  exact (pipeline_vocabulary (UD := cjk_table) (SG := blank_segmenter)
           sample_analyzer (one_file sample_chat) chat_path sample_analyzer
           split_blank_chars E).
Defined.

(* ================================================================== *)
(** * Further facts: the length histogram of [save_results] *)

Lemma hist_get_set_same k v d : hist_get k (hist_set k v d) = Some v.
Proof.
  induction d as [|[k' v'] t IH]; simpl; [rewrite Nat.eqb_refl; reflexivity|].
  destruct (Nat.eqb k k') eqn:E; simpl; rewrite E; auto.
Qed.

Lemma hist_get_set_other k k2 v d :
  k2 <> k -> hist_get k2 (hist_set k v d) = hist_get k2 d.
Proof.
  intros N; induction d as [|[k' v'] t IH]; simpl.
  - apply Nat.eqb_neq in N; rewrite N; reflexivity.
  - destruct (Nat.eqb k k') eqn:E; simpl; [|rewrite IH; reflexivity].
    apply Nat.eqb_eq in E; subst k'.
    apply Nat.eqb_neq in N; rewrite N; reflexivity.
Qed.

Lemma hist_get_in k d : In k (map fst d) <-> hist_get k d <> None.
Proof.
  induction d as [|[k' v'] t IH]; simpl; [tauto|].
  destruct (Nat.eqb_spec k k') as [->|N].
  - split; [discriminate | auto].
  - rewrite <- IH; split; [intros [H|H]; [congruence | exact H] | auto].
Qed.

Lemma hist_set_keys k v d :
  map fst (hist_set k v d)
  = if existsb (Nat.eqb k) (map fst d) then map fst d else map fst d ++ [k].
Proof.
  induction d as [|[k' v'] t IH]; simpl; [reflexivity|].
  destruct (Nat.eqb k k'); simpl; [reflexivity|].
  rewrite IH; destruct (existsb (Nat.eqb k) (map fst t)); reflexivity.
Qed.

Lemma hist_set_nodup k v d :
  NoDup (map fst d) -> NoDup (map fst (hist_set k v d)).
Proof.
  intros ND; rewrite hist_set_keys.
  destruct (existsb (Nat.eqb k) (map fst d)) eqn:E; [exact ND|].
  assert (Hk : ~ In k (map fst d)).
  { intros H. assert (X : existsb (Nat.eqb k) (map fst d) = true)
      by (apply existsb_exists; exists k; split;
          [exact H | apply Nat.eqb_refl]).
    congruence. }
  apply NoDup_rev in ND. rewrite <- (rev_involutive (map fst d ++ [k])).
  apply NoDup_rev. rewrite rev_app_distr; simpl.
  constructor; [rewrite <- in_rev; exact Hk | exact ND].
Qed.

Lemma total_hist_set k d :
  total (map snd (hist_set k (match hist_get k d with
                              | Some v => v
                              | None => 0%Z
                              end + 1)%Z d))
  = (total (map snd d) + 1)%Z.
Proof.
  unfold total; induction d as [|[k' v'] t IH]; simpl; [lia|].
  destruct (Nat.eqb k k'); simpl; [lia | rewrite IH; lia].
Qed.

Lemma total_perm (l l' : list Z) : Permutation l l' -> total l = total l'.
Proof.
  unfold total; induction 1; simpl; lia.
Qed.

Lemma values_by_keys (d : list (nat * Z)) :
  NoDup (map fst d) ->
  map (fun k => match hist_get k d with
                | Some v => v
                | None => 0%Z
                end) (map fst d)
  = map snd d.
Proof.
  induction d as [|[k v] t IH]; intros ND; [reflexivity|].
  simpl in ND; inversion ND as [|? ? Hk ND']; subst.
  simpl; rewrite Nat.eqb_refl; f_equal.
  rewrite <- (IH ND'). apply map_ext_in; intros k' Hk'.
  destruct (Nat.eqb_spec k' k) as [->|N]; [contradiction | reflexivity].
Qed.

Lemma words_of_length_cons k w f l :
  words_of_length k ((w, f) :: l)
  = ((if is_reported w && Nat.eqb (List.length w) k then 1 else 0)
     + words_of_length k l)%nat.
Proof.
  unfold words_of_length; cbn [filter fst].
  destruct (is_reported w && Nat.eqb (List.length w) k); reflexivity.
Qed.

(** The histogram after the loop over a list of entries. *)
Lemma length_fold (l : list (str * Z)) : forall (d : list (nat * Z)),
  let d' :=
    fold_left
      (fun dist '(word, freq) =>
         if negb (startswith pseudo_prefix word) then
           let length := List.length word in
           hist_set length
                    (match hist_get length dist with
                     | Some v => v
                     | None => 0%Z
                     end + 1)%Z
                    dist
         else dist) l d in
  (forall k,
     hist_get k d'
     = match words_of_length k l with
       | O => hist_get k d
       | S _ => Some (match hist_get k d with
                      | Some v => v
                      | None => 0%Z
                      end + Z.of_nat (words_of_length k l))%Z
       end)
  /\ (NoDup (map fst d) -> NoDup (map fst d'))
  /\ total (map snd d')
     = (total (map snd d)
        + Z.of_nat (List.length
                      (filter (fun e => is_reported (fst e)) l)))%Z.
Proof.
  induction l as [|[w f] l IH]; intros d.
  - simpl; repeat split; [auto | lia].
  - cbn [fold_left]. fold (is_reported w).
    destruct (is_reported w) eqn:R.
    + specialize (IH (hist_set (List.length w)
                               (match hist_get (List.length w) d with
                                | Some v => v
                                | None => 0%Z
                                end + 1)%Z d)).
      cbv zeta in IH |- *. destruct IH as (G & ND & T).
      split; [|split].
      * intros k. rewrite G, words_of_length_cons, R. cbn [andb].
        destruct (Nat.eqb_spec (List.length w) k) as [<-|N].
        -- rewrite hist_get_set_same.
           destruct (words_of_length (List.length w) l); cbn [Nat.add];
             f_equal; lia.
        -- rewrite hist_get_set_other by congruence. reflexivity.
      * intros H; apply ND, hist_set_nodup, H.
      * rewrite T, total_hist_set. cbn [filter fst]. rewrite R.
        cbn [List.length]. lia.
    + specialize (IH d). cbv zeta in IH |- *. destruct IH as (G & ND & T).
      split; [|split].
      * intros k. rewrite G, words_of_length_cons, R. reflexivity.
      * exact ND.
      * rewrite T. cbn [filter fst]. rewrite R. reflexivity.
Qed.

Lemma length_dist_facts (sorted_freq : list (str * Z)) :
  (forall k,
     hist_get k (length_dist sorted_freq)
     = match words_of_length k sorted_freq with
       | O => None
       | S _ => Some (Z.of_nat (words_of_length k sorted_freq))
       end)
  /\ NoDup (map fst (length_dist sorted_freq))
  /\ total (map snd (length_dist sorted_freq))
     = Z.of_nat (List.length
                   (filter (fun e => is_reported (fst e)) sorted_freq)).
Proof.
  destruct (length_fold sorted_freq []) as (G & ND & T).
  unfold length_dist. split; [|split].
  - intros k; specialize (G k); simpl in G.
    destruct (words_of_length k sorted_freq); exact G.
  - apply ND; constructor.
  - exact T.
Qed.

Lemma insert_asc_perm x l : Permutation (x :: l) (insert_asc x l).
Proof.
  induction l as [|y t IH]; simpl; [reflexivity|].
  destruct (x <=? y)%nat; [reflexivity|].
  rewrite perm_swap; apply perm_skip, IH.
Qed.

Lemma sorted_asc_perm l : Permutation l (sorted_asc l).
Proof.
  induction l as [|x l IH]; simpl; [reflexivity|].
  rewrite <- insert_asc_perm; apply perm_skip, IH.
Qed.

Lemma insert_asc_sorted x l :
  StronglySorted lt l -> ~ In x l -> StronglySorted lt (insert_asc x l).
Proof.
  induction l as [|y t IH]; simpl; intros S Hx.
  - constructor; constructor.
  - inversion S as [|? ? St Hy]; subst.
    destruct (x <=? y)%nat eqn:E.
    + apply Nat.leb_le in E. assert (x < y)%nat by lia.
      constructor; [exact S|].
      constructor; [assumption|].
      eapply Forall_impl; [|exact Hy]. intros; simpl in *; lia.
    + apply Nat.leb_gt in E.
      constructor; [apply IH; [exact St | tauto]|].
      rewrite <- insert_asc_perm. constructor; [exact E | exact Hy].
Qed.

Lemma sorted_asc_sorted l : NoDup l -> StronglySorted lt (sorted_asc l).
Proof.
  induction l as [|x l IH]; intros ND; simpl; [constructor|].
  inversion ND as [|? ? Hx ND']; subst.
  apply insert_asc_sorted; [apply IH, ND'|].
  intros H; apply Hx. eapply Permutation_in; [symmetry; apply sorted_asc_perm|].
  exact H.
Qed.

Lemma rows_sorted (g : nat -> Z) (ks : list nat) :
  StronglySorted lt ks ->
  StronglySorted (fun a b => (fst a < fst b)%nat) (map (fun k => (k, g k)) ks).
Proof.
  induction 1 as [|k ks S IH F]; simpl; constructor; [exact IH|].
  rewrite Forall_map. eapply Forall_impl; [|exact F]. intros; simpl; assumption.
Qed.

(** X9. The length histogram of the summary of [save_results]: it has a
    row for a length exactly when some entry written to the vocabulary list
    has that many characters, the row holds the number of such entries,
    the rows go up strictly in length, and their counts add up to the
    number of entries of the vocabulary list. *)
Theorem length_histogram (sorted_freq : list (str * Z)) :
  let rows := length_rows sorted_freq in
  (forall k n,
     In (k, n) rows
     <-> words_of_length k sorted_freq <> 0%nat
         /\ n = Z.of_nat (words_of_length k sorted_freq))
  /\ StronglySorted (fun a b => (fst a < fst b)%nat) rows
  /\ total (map snd rows) = Z.of_nat (List.length (vocabulary sorted_freq)).
Proof.
  cbv zeta. unfold length_rows.
  destruct (length_dist_facts sorted_freq) as (G & ND & T).
  set (dist := length_dist sorted_freq) in *.
  assert (K : forall k, In k (map fst dist)
                        <-> words_of_length k sorted_freq <> 0%nat).
  { intros k; rewrite hist_get_in, G.
    destruct (words_of_length k sorted_freq); split; congruence. }
  split; [|split].
  - intros k n. rewrite in_map_iff. split.
    + intros (k' & E & Hk); inversion E; subst k' n.
      apply (Permutation_in _ (Permutation_sym (sorted_asc_perm _))) in Hk.
      apply K in Hk. split; [exact Hk|].
      rewrite G.
      destruct (words_of_length k sorted_freq); [contradiction | reflexivity].
    + intros [Hk ->]. exists k; split.
      * rewrite G.
        destruct (words_of_length k sorted_freq); [contradiction | reflexivity].
      * apply (Permutation_in _ (sorted_asc_perm _)), K, Hk.
  - apply rows_sorted, sorted_asc_sorted, ND.
  - rewrite map_map; cbn [snd].
    rewrite <- (total_perm
                  (Permutation_map
                     (fun k => match hist_get k dist with
                               | Some v => v
                               | None => 0%Z
                               end)
                     (sorted_asc_perm (map fst dist)))).
    rewrite (values_by_keys dist ND), T.
    unfold vocabulary; rewrite length_map. reflexivity.
Qed.

(* ================================================================== *)
(** * Further facts: the loaders and the template writers *)

Section LoaderFacts.
Context {IF : IniFormat}.

(** X10. The only change that [load_config] ever makes to the file system
    is to create the configuration file when it is missing, with the
    built-in defaults as [config.write] renders them; an existing file, in
    whatever state, is never written. *)
Theorem load_config_writes_only_missing_file (fs : filesystem)
  (config_file p : str) :
  node_at (snd (load_config fs config_file)) p <> node_at fs p ->
  p = config_file
  /\ node_at fs config_file = Absent
  /\ create_error fs config_file = None
  /\ node_at (snd (load_config fs config_file)) p
     = File (ini_render defaults).
Proof.
  unfold load_config, path_exists, config_read, write_file.
  destruct (node_at fs config_file) eqn:Hn.
  - destruct (create_error fs config_file) eqn:Hc; cbn [snd node_at];
      [intros H; contradiction H; reflexivity|].
    destruct (str_eqb p config_file) eqn:E.
    + apply str_eqb_spec in E; subst p; intros _; auto.
    + intros H; contradiction H; reflexivity.
  - cbn [snd]; intros H; contradiction H; reflexivity.
  - destruct (ini_parse content) as [cfg [e|]]; cbn [snd];
      intros H; contradiction H; reflexivity.
Qed.

(** X11. When the configuration file is missing, or [config.read] raises
    on it, every built-in option reads back from the loaded configuration
    with its built-in value, whatever the parser had taken from the file
    before the error. *)
Theorem load_config_falls_back_to_defaults (fs : filesystem)
  (config_file key value : str) :
  node_at fs config_file = Absent
  \/ (exists bs partial e,
        node_at fs config_file = File bs
        /\ ini_parse bs = (partial, Some e)) ->
  In (key, value) default_options ->
  config_get (fst (load_config fs config_file)) (u "settings") key
  = Return value.
Proof.
  intros H Hin. unfold load_config, path_exists, config_read.
  destruct H as [Hn|(bs & partial & e & Hn & Hp)]; rewrite Hn.
  - destruct (write_file fs config_file (ini_render (read_dict defaults [])));
      cbn [fst]; apply read_dict_defaults_get, Hin.
  - rewrite Hp; cbn [fst]; apply read_dict_defaults_get, Hin.
Qed.


(** X15. [create_default_config] leaves the file system exactly as
    [load_config] on [config.ini] leaves it (the same file with the same
    content, or no change); unlike [load_config] it lets the error of a
    failed creation out, and that is the only way it raises. *)
Theorem create_default_config_like_load_config (fs : filesystem) :
  snd (create_default_config fs) = snd (load_config fs (u "config.ini"))
  /\ forall e,
       fst (create_default_config fs) = Raise e
       <-> node_at fs (u "config.ini") = Absent
           /\ (create_error fs (u "config.ini") = Some e).
Proof.
  unfold create_default_config, load_config, path_exists, config_read,
    write_file.
  destruct (node_at fs (u "config.ini")) eqn:Hn.
  - destruct (create_error fs (u "config.ini")) as [e0|] eqn:Hc; cbn [fst snd].
    + split; [reflexivity|]. intros e; split.
      * intros H; inversion H; auto.
      * intros [_ H]; inversion H; reflexivity.
    + split; [reflexivity|]. intros e; split.
      * discriminate.
      * intros [_ H]; discriminate.
  - cbn [fst snd]. split; [reflexivity|].
    intros e; split; [discriminate | intros [H _]; discriminate].
  - cbn [fst snd]. split.
    + destruct (ini_parse content) as [cfg [e|]]; reflexivity.
    + intros e; split; [discriminate | intros [H _]; discriminate].
Qed.

End LoaderFacts.

Lemma load_config_writes_only_missing_file_witness :
  node_at (snd (load_config (IF := strict_ini) (one_file []) config_path))
          config_path
  = File (ini_render (IniFormat := strict_ini) defaults).
Proof.
  apply (load_config_writes_only_missing_file (IF := strict_ini)
           (one_file []) config_path config_path).
  vm_compute; discriminate.
Defined.

Lemma load_config_falls_back_to_defaults_witness :
  config_get
    (fst (load_config (IF := strict_ini) (one_file [x5b]) chat_path))
    (u "settings") (u "min_frequency")
  = Return (u "20").
Proof.
  apply (load_config_falls_back_to_defaults (IF := strict_ini)
           (one_file [x5b]) chat_path).
  - right; exists [x5b], [], ParsingError; split; vm_compute; reflexivity.
  - vm_compute; left; reflexivity.
Defined.


(** X13. What [load_stopwords] returns: the built-in words, and, when
    [stopwords.txt] opens and decodes, the stripped text of every line
    that is not blank and does not begin with [#]; nothing else. *)
Theorem load_stopwords_members (fs : filesystem) (w : str) :
  In w (load_stopwords fs)
  <-> In w default_stopwords
      \/ exists bs text line,
           node_at fs stopwords_file = File bs
           /\ utf8_decode bs = Some text
           /\ In line (lines_of (translate_newlines text))
           /\ w = strip line
           /\ w <> []
           /\ startswith [35%N] line = false.
Proof.
  unfold load_stopwords, path_exists, open_read.
  destruct (node_at fs stopwords_file) as [| |bs] eqn:Hn.
  - split; [auto|]. intros [H|(bs & text & line & H & _)];
      [exact H | discriminate].
  - split; [auto|]. intros [H|(bs & text & line & H & _)];
      [exact H | discriminate].
  - destruct (utf8_decode bs) as [text|] eqn:Hd.
    + rewrite in_app_iff, in_map_iff. split.
      * intros [H|(line & <- & H)]; [auto|].
        apply filter_In in H as [Hl Ht].
        apply andb_true_iff in Ht as [T1 T2].
        apply negb_true_iff in T1, T2.
        right; exists bs, text, line; repeat split; auto.
        intros E; rewrite E in T1; discriminate.
      * intros [H|(bs' & text' & line & Hb & Ht & Hl & -> & Hw & Hs)];
          [auto|].
        inversion Hb; subst bs'. rewrite Hd in Ht; inversion Ht; subst text'.
        right; exists line; split; [reflexivity|].
        apply filter_In; split; [exact Hl|].
        rewrite Hs, (str_eqb_neq Hw); reflexivity.
    + split; [auto|].
      intros [H|(bs' & text' & line & Hb & Ht & _)]; [exact H|].
      inversion Hb; subst bs'. rewrite Hd in Ht; discriminate.
Qed.

Lemma template_words_known :
  forall fs,
    node_at fs stopwords_file = File exclude_template ->
    forall w, In w (load_stopwords fs) <-> In w default_stopwords.
Proof.
  intros fs Hn w.
  assert (D : exists text, utf8_decode exclude_template = Some text
              /\ forallb (fun x => mem x default_stopwords)
                   (map strip
                      (filter
                         (fun line => negb (str_eqb (strip line) [])
                                      && negb (startswith [35%N] line))
                         (lines_of (translate_newlines text)))) = true).
  { destruct (utf8_decode exclude_template) as [text|] eqn:D;
      [|vm_compute in D; discriminate].
    exists text; split; [reflexivity|].
    vm_compute in D; inversion D; subst text. vm_compute; reflexivity. }
  destruct D as (text & Hd & F).
  unfold load_stopwords, path_exists, open_read; rewrite Hn, Hd.
  rewrite in_app_iff. split; [|auto].
  intros [H|H]; [exact H|].
  rewrite forallb_forall in F. apply mem_spec, F, H.
Qed.

(** X14. [create_exclude_list] never overwrites: when [stopwords.txt] is
    there the file system stays as it is.  When it is missing and can be
    created, the call returns the name, a second call changes nothing, and
    the template adds no word: [load_stopwords] then returns a set with
    the members of the built-in one. *)
Theorem create_exclude_list_template (fs : filesystem) :
  (path_exists fs (u "stopwords.txt") = true ->
   create_exclude_list fs = (Return (u "stopwords.txt"), fs))
  /\ (node_at fs (u "stopwords.txt") = Absent ->
      create_error fs (u "stopwords.txt") = None ->
      let fs' := snd (create_exclude_list fs) in
      fst (create_exclude_list fs) = Return (u "stopwords.txt")
      /\ create_exclude_list fs' = (Return (u "stopwords.txt"), fs')
      /\ forall w, In w (load_stopwords fs') <-> In w default_stopwords).
Proof.
  split.
  - intros H; unfold create_exclude_list; rewrite H; reflexivity.
  - intros Hn Hc fs'.
    assert (E : create_exclude_list fs
                = (Return (u "stopwords.txt"),
                   {| node_at := fun q =>
                        if str_eqb q (u "stopwords.txt")
                        then File exclude_template else node_at fs q;
                      create_error := create_error fs;
                      open_error := open_error fs |})).
    { unfold create_exclude_list, path_exists, write_file.
      rewrite Hn, Hc; reflexivity. }
    subst fs'; rewrite E; cbn [fst snd].
    split; [reflexivity|]. split.
    + unfold create_exclude_list, path_exists; cbn [node_at].
      rewrite str_eqb_refl; reflexivity.
    + apply template_words_known. cbn [node_at].
      change stopwords_file with (u "stopwords.txt").
      rewrite str_eqb_refl; reflexivity.
Qed.

Lemma create_exclude_list_template_witness :
  fst (create_exclude_list (one_file [])) = Return (u "stopwords.txt")
  /\ create_exclude_list (snd (create_exclude_list (one_file [])))
     = (Return (u "stopwords.txt"), snd (create_exclude_list (one_file [])))
  /\ forall w,
       In w (load_stopwords (snd (create_exclude_list (one_file []))))
       <-> In w default_stopwords.
Proof.
  apply (proj2 (create_exclude_list_template (one_file [])));
    vm_compute; reflexivity.
Defined.

(* ================================================================== *)
(** * Further facts: the normalizer, the tokenizer, blank lines *)

Lemma single_spaced_blank (t : str) (c : char) :
  single_spaced t -> In c t -> is_space c = true -> c = 32%N.
Proof.
  induction t as [|a t IH]; [intros _ []|].
  intros [Ha Ht] [<-|Hin] Hc; [exact (proj1 (Ha Hc)) | exact (IH Ht Hin Hc)].
Qed.

Lemma single_spaced_adjacent (l1 l2 : str) (a b : char) :
  single_spaced (l1 ++ a :: b :: l2) ->
  is_space a = true -> is_space b = false.
Proof.
  induction l1 as [|x l1 IH]; simpl.
  - intros [Ha _] Hs; exact (proj2 (Ha Hs)).
  - intros [_ Ht]; exact (IH Ht).
Qed.

Lemma strip_blank (s : str) :
  (forall c, In c s -> is_space c = true) -> strip s = [].
Proof.
  intros H. assert (L : lstrip s = []).
  { induction s as [|c t IH]; [reflexivity|].
    simpl; rewrite (H c (or_introl eq_refl)).
    apply IH; intros x Hx; apply H; right; exact Hx. }
  unfold strip; rewrite L; reflexivity.
Qed.

Lemma space_kept {UD : Unicode} (c : char) : is_space c = true -> kept c = true.
Proof.
  intros H; unfold kept; rewrite H.
  rewrite !orb_true_r; reflexivity.
Qed.

Section NormalizerShape.
Context {UD : Unicode} {SG : Segmenter}.

(** X16. The shape of a normalized line: every character is in the
    allowed class; the only white space is U+0020; no two white-space
    characters are neighbours; and there is none at either end
    ([strip] changes nothing). *)
Theorem normalized_shape (s : str) :
  let t := preprocess_text s in
  (forall c, In c t -> kept c = true)
  /\ (forall c, In c t -> is_space c = true -> c = 32%N)
  /\ (forall l1 l2 a b,
        t = (l1 ++ a :: b :: l2)%list ->
        is_space a = true -> is_space b = false)
  /\ strip t = t.
Proof.
  cbv zeta. split; [|split; [|split]].
  - intros c; apply preprocess_kept.
  - intros c; apply single_spaced_blank, preprocess_single_spaced.
  - intros l1 l2 a b E; apply (single_spaced_adjacent l1 l2).
    rewrite <- E; apply preprocess_single_spaced.
  - unfold preprocess_text; apply strip_idem.
Qed.

Lemma preprocess_blank (s : str) :
  (forall c, In c s -> is_space c = true) -> preprocess_text s = [].
Proof.
  intros H. unfold preprocess_text.
  rewrite (re_sub_without [] url_nonempty 58%N s url_has_colon).
  2: { intros K; apply H in K; vm_compute in K; discriminate. }
  rewrite (re_sub_without [] email_nonempty 64%N s email_has_at).
  2: { intros K; apply H in K; vm_compute in K; discriminate. }
  rewrite re_sub_special, filter_fix
    by (intros c Hc; apply space_kept, H, Hc).
  apply strip_blank. intros c Hc.
  apply (re_sub_incl _ spaces_nonempty) in Hc as [Hc|Hc]; [|exact (H c Hc)].
  rewrite blank_literal in Hc; destruct Hc as [<-|[]]; reflexivity.
Qed.

(** X17. A line of white space only (an empty line with its line feed,
    for one) changes nothing: the detector does not take it, whether the
    statistics are on or off, no word is counted and [total_lines] stays. *)
Theorem blank_line_changes_nothing (self : analyzer) (st : locals)
  (line_num : nat) (line : str) :
  (forall c, In c line -> is_space c = true) ->
  process_line self st line_num line = Return st.
Proof.
  intros H. rewrite process_line_classify.
  unfold classify; rewrite (strip_blank line H).
  cbn [str_eqb negb andb].
  assert (C : count_words st line_num line = st)
    by (unfold count_words; rewrite (preprocess_blank line H); reflexivity).
  rewrite C. destruct (enable_punctuation_stats self); reflexivity.
Qed.

(** X18. Every word that [extract_words] returns is not empty, has no
    white space at either end, and is the stripped text of a piece that
    the segmenter gave; pieces of white space only are dropped. *)
Theorem extract_words_clean (text w : str) :
  In w (extract_words text) ->
  w <> []
  /\ strip w = w
  /\ exists piece, In piece (lcut text) /\ w = strip piece.
Proof.
  unfold extract_words; intros H.
  apply in_map_iff in H as (piece & <- & H).
  apply filter_In in H as [Hp Hn].
  apply negb_true_iff in Hn.
  split; [|split].
  - intros E; rewrite E in Hn; discriminate.
  - apply strip_idem.
  - exists piece; auto.
Qed.

End NormalizerShape.

Lemma blank_line_changes_nothing_witness :
  process_line (UD := cjk_table) (SG := blank_segmenter)
    sample_analyzer initial_locals 3 [32%N; 9%N; 10%N]
  = Return initial_locals.
Proof.
  apply (blank_line_changes_nothing (UD := cjk_table)
           (SG := blank_segmenter)).
  intros c [<-|[<-|[<-|[]]]]; reflexivity.
Defined.

Lemma extract_words_clean_witness :
  u "bb" <> []
  /\ strip (u "bb") = u "bb"
  /\ exists piece,
       In piece (lcut (Segmenter := blank_segmenter) (u "a bb "))
       /\ u "bb" = strip piece.
Proof.
  apply (extract_words_clean (SG := blank_segmenter) (u "a bb ")).
  vm_compute; right; left; reflexivity.
Defined.

(* ================================================================== *)
(** * Further facts: what the report skips, what the cloud draws *)

Lemma block_is_pseudo_entries (self : analyzer) (sc : dict Z) :
  punctuation_block self sc
  = if enable_punctuation_stats self then pseudo_entries self sc else [].
Proof.
  unfold punctuation_block, pseudo_entries.
  destruct (enable_punctuation_stats self); [|reflexivity].
  cbn [andb].
  destruct (existsb (fun count => (min_frequency self <=? count)%Z)
                    (map snd sc)) eqn:E; [reflexivity|].
  replace (filter (fun e => (min_frequency self <=? snd e)%Z) sc) with
    (@nil (str * Z)); [reflexivity|].
  symmetry. induction sc as [|[n c] sc IH]; [reflexivity|].
  simpl in E; apply orb_false_iff in E as [E1 E2].
  cbn [filter snd]; rewrite E1; apply IH, E2.
Qed.

Section ReportFacts.
Context {UD : Unicode} {SG : Segmenter}.

(** X19. For a table and a tally that [analyze_chat_file] returned, the
    entries of the ranked result that the listings of [save_results] skip
    are the rows of the punctuation block of the detailed report, sorted
    by count: every ranked entry is written, in the block or in the
    listing.  Same assumption on the segmenter. *)
Theorem skipped_entries_are_the_block (self : analyzer) (fs : filesystem)
  (file_path : str) (wf sc : dict Z) (self' : analyzer) :
  (forall t w x, In w (lcut t) -> In x w -> In x t) ->
  analyze_chat_file self fs file_path = Return (wf, sc) ->
  skipped (filter_and_sort self' wf sc)
  = sorted_desc snd (punctuation_block self' sc).
Proof.
  intros Hseg E. unfold skipped, filter_and_sort.
  rewrite (pipeline_candidates self fs file_path self' Hseg E).
  rewrite filter_sorted_desc, filter_app, block_is_pseudo_entries.
  destruct (analyze_shape self fs file_path Hseg E) as (_ & B & _).
  assert (R : filter (fun e => startswith pseudo_prefix (fst e))
                     (filter (keeps self') wf) = []).
  { destruct (filter (fun e => startswith pseudo_prefix (fst e))
                     (filter (keeps self') wf)) as [|[w c] r] eqn:F;
      [reflexivity|].
    assert (K : In (w, c) (filter (fun e => startswith pseudo_prefix (fst e))
                                  (filter (keeps self') wf)))
      by (rewrite F; left; reflexivity).
    apply filter_In in K as [K S]. apply filter_In in K as [K _].
    exfalso; exact (B _ _ K (startswith_pseudo_bracket _ S)). }
  rewrite R; cbn [app]. f_equal.
  destruct (enable_punctuation_stats self'); [|reflexivity].
  apply filter_fix. intros [l c] H. unfold pseudo_entries in H.
  apply in_map_iff in H as ([n c'] & Ee & _); inversion Ee; subst.
  apply display_name_pseudo.
Qed.

End ReportFacts.

Lemma skipped_entries_are_the_block_witness :
  exists wf sc,
    analyze_chat_file (UD := cjk_table) (SG := blank_segmenter)
      sample_analyzer (one_file sample_chat) chat_path = Return (wf, sc)
    /\ skipped (filter_and_sort sample_analyzer wf sc)
       = sorted_desc snd (punctuation_block sample_analyzer sc).
Proof.
  destruct (analyze_chat_file (UD := cjk_table) (SG := blank_segmenter)
              sample_analyzer (one_file sample_chat) chat_path)
    as [[wf sc]|e] eqn:E; [|vm_compute in E; discriminate].
  exists wf, sc; split; [reflexivity|].
  exact (skipped_entries_are_the_block (UD := cjk_table)
           (SG := blank_segmenter) sample_analyzer (one_file sample_chat)
           chat_path sample_analyzer split_blank_chars E).
Defined.

Section CloudFacts.
Context {CR : CloudRenderer}.

(** X20. [generate_wordcloud] returns [None] and leaves the file system
    alone, without a call of the renderer, when every label of the ranked
    result is a pseudo-label; and whatever happens, the only file it can
    change is the image [词云_<now>.png], and only when [save_wordcloud]
    reads as true. *)
Theorem wordcloud_footprint (self self' : analyzer) (fs : filesystem)
  (now : str) (wf sc : dict Z) :
  let ranked := filter_and_sort self' wf sc in
  ((forall label count,
      In (label, count) ranked -> startswith pseudo_prefix label = true) ->
   generate_wordcloud self fs now ranked = (None, fs))
  /\ (forall p,
        node_at (snd (generate_wordcloud self fs now ranked)) p
        <> node_at fs p ->
        p = (u "词云_" ++ now ++ u ".png")%list
        /\ config_getboolean (config self) (u "settings")
                             (u "save_wordcloud") = Return true).
Proof.
  cbv zeta. split.
  - intros H. unfold generate_wordcloud.
    rewrite (proj2 (proj2 (cloud_takes_reported_entries self' wf sc)) H).
    reflexivity.
  - intros p. unfold generate_wordcloud.
    destruct (cloud_frequencies (filter_and_sort self' wf sc)) as [|e0 d];
      [intros H; contradiction H; reflexivity|].
    match goal with
    | |- context [match ?prep with Return _ => _ | Raise _ => _ end] =>
        destruct prep as [[wc file]|e] eqn:P
    end; [|intros H; contradiction H; reflexivity].
    assert (F : file = (u "词云_" ++ now ++ u ".png")%list).
    { revert P. unfold bind.
      repeat match goal with
             | |- context [match ?x with Return _ => _ | Raise _ => _ end] =>
                 destruct x; try discriminate
             end.
      intros P; inversion P; reflexivity. }
    destruct (config_getboolean (config self) (u "settings")
                                (u "save_wordcloud")) as [[|]|e];
      try (intros H; contradiction H; reflexivity).
    + unfold write_file.
      destruct (node_at fs file) eqn:Hn.
      * destruct (create_error fs file);
          [intros H; contradiction H; reflexivity|].
        assert (G : forall fs1 : filesystem,
                  node_at fs1 p <> node_at fs p ->
                  (forall q, q <> file -> node_at fs1 q = node_at fs q) ->
                  p = (u "词云_" ++ now ++ u ".png")%list
                  /\ Return true = Return true).
        { intros fs1 Hd Ho; split; [|reflexivity].
          rewrite <- F. destruct (str_eqb p file) eqn:Ep;
            [apply str_eqb_spec, Ep|].
          exfalso; apply Hd, Ho. intros ->; rewrite str_eqb_refl in Ep.
          discriminate. }
        destruct (config_getboolean (config self) (u "settings")
                                    (u "show_wordcloud")) as [[|]|e];
          [destruct (show wc)| |]; cbn [snd]; intros H;
          apply (G _ H); intros q Hq; cbn [node_at];
          rewrite (str_eqb_neq Hq); reflexivity.
      * intros H; contradiction H; reflexivity.
      * assert (G : forall fs1 : filesystem,
                  node_at fs1 p <> node_at fs p ->
                  (forall q, q <> file -> node_at fs1 q = node_at fs q) ->
                  p = (u "词云_" ++ now ++ u ".png")%list
                  /\ Return true = Return true).
        { intros fs1 Hd Ho; split; [|reflexivity].
          rewrite <- F. destruct (str_eqb p file) eqn:Ep;
            [apply str_eqb_spec, Ep|].
          exfalso; apply Hd, Ho. intros ->; rewrite str_eqb_refl in Ep.
          discriminate. }
        destruct (config_getboolean (config self) (u "settings")
                                    (u "show_wordcloud")) as [[|]|e];
          [destruct (show wc)| |]; cbn [snd]; intros H;
          apply (G _ H); intros q Hq; cbn [node_at];
          rewrite (str_eqb_neq Hq); reflexivity.
    + destruct (config_getboolean (config self) (u "settings")
                                  (u "show_wordcloud")) as [[|]|e];
        [destruct (show wc)| |]; cbn [snd]; intros H;
        contradiction H; reflexivity.
Qed.

End CloudFacts.

Lemma wordcloud_footprint_witness :
  generate_wordcloud (CR := plain_renderer) sample_analyzer (one_file [])
    (u "20240101_120000")
    (filter_and_sort sample_analyzer [] busy_tally)
  = (None, one_file []).
Proof.
  apply (proj1 (wordcloud_footprint (CR := plain_renderer) sample_analyzer
                  sample_analyzer (one_file []) (u "20240101_120000")
                  [] busy_tally)).
  intros label count H. vm_compute in H.
  destruct H as [H|[]]; inversion H; reflexivity.
Defined.

(** The word cloud of the busy table: drawn with the fall-back font (the
    configured font file is not there), saved and shown. *)
Example wordcloud_is_saved :
  let '(file, fs') :=
    generate_wordcloud (CR := plain_renderer) sample_analyzer (one_file [])
      (u "20240101_120000")
      (filter_and_sort sample_analyzer busy_table busy_tally) in
  file = Some (u "词云_20240101_120000.png")
  /\ node_at fs' (u "词云_20240101_120000.png") = File [x89].
Proof. vm_compute; split; reflexivity. Qed.

(** A line that begins with a blank and then [#] is not a comment line of
    [stopwords.txt]: the test is made on the line as it is read. *)
Example indented_comment_is_a_word :
  In (u "#x")
     (load_stopwords
        {| node_at := fun p => if str_eqb p stopwords_file
                               then File (list_byte_of_string " #x")
                               else Absent;
           create_error := fun _ => None;
           open_error := fun _ => FileNotFoundError |}).
Proof. apply in_or_app; right; vm_compute; left; reflexivity. Qed.

Example histogram_of_busy_table :
  length_rows (filter_and_sort sample_analyzer
                 ((u "一二三", 40%Z) :: busy_table) busy_tally)
  = [ (2%nat, 3%Z); (3%nat, 1%Z) ].
Proof. vm_compute; reflexivity. Qed.

(* ================================================================== *)
(** * Further facts: the order of the lines, the height of the threshold *)

Lemma filter_length_perm {A} (f : A -> bool) (l l' : list A) :
  Permutation l l' ->
  List.length (filter f l) = List.length (filter f l').
Proof.
  induction 1 as [|x l l' _ IH|x y l|l l' l'' _ IH1 _ IH2]; simpl.
  - reflexivity.
  - destruct (f x); simpl; rewrite IH; reflexivity.
  - destruct (f x), (f y); reflexivity.
  - rewrite IH1; exact IH2.
Qed.

Lemma get_table_of (w : str) (l : list str) :
  dict_get w (table_of l)
  = match occurrences w l with
    | O => None
    | S _ => Some (Z.of_nat (occurrences w l))
    end.
Proof.
  rewrite <- fold_table, fold_counts.
  destruct (occurrences w l); reflexivity.
Qed.

Section LineOrder.
Context {UD : Unicode} {SG : Segmenter}.

(** X21. The order of the lines changes no count: for two files that
    open and decode to the same lines in another order, every word has the
    same entry, or none, in the two word tables, and the two tallies are
    equal.  (The order of the keys of the table may differ.) *)
Theorem counts_ignore_line_order (self : analyzer) (fs fs' : filesystem)
  (file_path file_path' : str) (bs bs' : list byte) (text text' : str) :
  node_at fs file_path = File bs -> utf8_decode bs = Some text ->
  node_at fs' file_path' = File bs' -> utf8_decode bs' = Some text' ->
  Permutation (lines_of (translate_newlines text))
              (lines_of (translate_newlines text')) ->
  exists wf wf' sc,
    analyze_chat_file self fs file_path = Return (wf, sc)
    /\ analyze_chat_file self fs' file_path' = Return (wf', sc)
    /\ forall w, dict_get w wf = dict_get w wf'.
Proof.
  intros Hn Hd Hn' Hd' P.
  rewrite (analyze_value self fs file_path Hn Hd),
    (analyze_value self fs' file_path' Hn' Hd').
  assert (L : forall name,
             lines_in self name (lines_of (translate_newlines text))
             = lines_in self name (lines_of (translate_newlines text')))
    by (intros name; unfold lines_in; apply filter_length_perm, P).
  rewrite !L.
  do 3 eexists; split; [reflexivity|]; split; [reflexivity|].
  intros w; rewrite !get_table_of.
  assert (O : occurrences w (file_tokens self
                               (lines_of (translate_newlines text)))
              = occurrences w (file_tokens self
                                 (lines_of (translate_newlines text')))).
  { unfold occurrences, file_tokens.
    apply filter_length_perm, Permutation_flat_map, P. }
  rewrite O; reflexivity.
Qed.

End LineOrder.

Lemma counts_ignore_line_order_witness :
  exists wf wf' sc,
    analyze_chat_file (UD := cjk_table) (SG := blank_segmenter)
      sample_analyzer (one_file [x61; x0a; x62; x0a]) chat_path
    = Return (wf, sc)
    /\ analyze_chat_file (UD := cjk_table) (SG := blank_segmenter)
         sample_analyzer (one_file [x62; x0a; x61; x0a]) chat_path
       = Return (wf', sc)
    /\ forall w, dict_get w wf = dict_get w wf'.
Proof.
  apply (counts_ignore_line_order (UD := cjk_table) (SG := blank_segmenter)
           sample_analyzer (one_file [x61; x0a; x62; x0a])
           (one_file [x62; x0a; x61; x0a]) chat_path chat_path
           (bs := [x61; x0a; x62; x0a]) (bs' := [x62; x0a; x61; x0a])
           (text := [97; 10; 98; 10]%N) (text' := [98; 10; 97; 10]%N));
    try (vm_compute; reflexivity).
  vm_compute; apply perm_swap.
Defined.

Lemma pseudo_entries_threshold (low high : analyzer) (sc : dict Z) :
  (min_frequency low <= min_frequency high)%Z ->
  filter (fun e => (min_frequency high <=? snd e)%Z) (pseudo_entries low sc)
  = pseudo_entries high sc.
Proof.
  intros Hm; unfold pseudo_entries.
  induction sc as [|[n c] sc IH]; [reflexivity|].
  cbn [filter snd].
  destruct (min_frequency high <=? c)%Z eqn:Eh.
  - replace (min_frequency low <=? c)%Z with true
      by (symmetry; apply Z.leb_le; apply Z.leb_le in Eh; lia).
    cbn [map filter fst snd]; rewrite Eh, IH; reflexivity.
  - destruct (min_frequency low <=? c)%Z; [|exact IH].
    cbn [map filter fst snd]; rewrite Eh; exact IH.
Qed.

(** X22. Raising the threshold only cuts the ranked result: for two
    analyzers that differ in [min_frequency] alone, the result for the
    higher threshold is the result for the lower one without the entries
    below the higher threshold, in the same order.  (For distinct keys and
    categories and no pseudo-label among the keys of the table.) *)
Theorem higher_threshold_cuts_ranking (low high : analyzer) (wf sc : dict Z) :
  stopwords high = stopwords low ->
  enable_punctuation_stats high = enable_punctuation_stats low ->
  (min_frequency low <= min_frequency high)%Z ->
  NoDup (keys wf) -> NoDup (keys sc) ->
  (forall name, In name (keys sc) -> ~ In (display_name name) (keys wf)) ->
  filter_and_sort high wf sc
  = filter (fun e => (min_frequency high <=? snd e)%Z)
           (filter_and_sort low wf sc).
Proof.
  intros Hs He Hm NDw NDs Hd. unfold filter_and_sort.
  rewrite (candidates_fresh high wf sc NDw NDs Hd),
    (candidates_fresh low wf sc NDw NDs Hd).
  rewrite filter_sorted_desc, filter_app, filter_filter. f_equal. f_equal.
  - apply filter_ext_in_bool; intros [w c] _. unfold keeps; cbn [fst snd].
    rewrite Hs.
    destruct (min_frequency high <=? c)%Z eqn:Eh.
    + replace (min_frequency low <=? c)%Z with true
        by (symmetry; apply Z.leb_le; apply Z.leb_le in Eh; lia).
      rewrite !andb_true_r; reflexivity.
    + rewrite !andb_false_r; reflexivity.
  - rewrite He. destruct (enable_punctuation_stats low); [|reflexivity].
    symmetry; apply pseudo_entries_threshold, Hm.
Qed.

Lemma higher_threshold_cuts_ranking_witness :
  filter_and_sort
    {| config := defaults; min_frequency := 30;
       enable_punctuation_stats := true; stopwords := default_stopwords |}
    busy_table busy_tally
  = filter (fun e => (30 <=? snd e)%Z)
           (filter_and_sort sample_analyzer busy_table busy_tally).
Proof.
  apply (higher_threshold_cuts_ranking sample_analyzer
           {| config := defaults; min_frequency := 30;
              enable_punctuation_stats := true;
              stopwords := default_stopwords |} busy_table busy_tally).
  - reflexivity.
  - reflexivity.
  - simpl; lia.
  - vm_compute; repeat (constructor; [simpl; intuition discriminate|]).
    constructor.
  - vm_compute; repeat (constructor; [simpl; intuition discriminate|]).
    constructor.
  - intros name [<-|[<-|[]]]; vm_compute; intuition discriminate.
Defined.
